(** * ISO 3166-3 scraper: the text-normalization core

    A shallow embedding of [iso3166-3scrapper.py] (class [ISO3166_3Scraper])
    and the properties of its field normalizers.

    - Python [str] values are lists of Unicode code points.
    - The [re] patterns of the source are terms of a small regular-expression
      syntax, run by a backtracking matcher with the priorities of CPython's
      engine (leftmost start, first alternative, greedy or lazy repetition).
    - What depends on the Unicode character database beyond ASCII (decimal
      digits, alphanumerics, case mappings) is a parameter, [unicode_tables].
    - Exceptions are values of an error monad, [result]. *)

From Stdlib Require Import List NArith ZArith Bool Arith Lia String Ascii.
From Stdlib Require DecimalString.
Import ListNotations.

Set Implicit Arguments.

(** ** Characters and strings *)

Definition char := N.
Bind Scope N_scope with char.
Definition str := list char.

(** An ASCII literal of the source as a [str]. *)
Definition py (x : string) : str :=
  map N_of_ascii (list_ascii_of_string x).

Definition in_range (lo hi c : char) : bool :=
  ((lo <=? c) && (c <=? hi))%N.

Definition is_ascii (c : char) : bool := (c <? 128)%N.
Definition ascii_upper (c : char) : bool := in_range 65 90 c.
Definition ascii_lower (c : char) : bool := in_range 97 122 c.
Definition ascii_digit (c : char) : bool := in_range 48 57 c.

(** [Py_UNICODE_ISSPACE]: the one whitespace test behind [str.strip],
    [str.split] and the pattern class [\s]. *)
Definition is_space (c : char) : bool :=
  in_range 9 13 c || in_range 28 32 c || (c =? 133)%N || (c =? 160)%N ||
  (c =? 5760)%N || in_range 8192 8202 c || (c =? 8232)%N || (c =? 8233)%N ||
  (c =? 8239)%N || (c =? 8287)%N || (c =? 12288)%N.

(** The Unicode character database beyond ASCII. *)
Record unicode_tables := {
  (* Py_UNICODE_TODECIMAL: the value of a decimal digit (category Nd) *)
  uni_todecimal : char -> option N;
  (* Py_UNICODE_ISALNUM *)
  uni_isalnum : char -> bool;
  (* Py_UNICODE_TOLOWER: the one-character lower case the re module uses *)
  uni_tolower : char -> char;
  (* str.lower of one cased character, given the characters before it
     (nearest first) and after it: the full mapping may give several
     characters, and capital sigma depends on its neighbours *)
  uni_lower : str -> char -> str -> str
}.

(** Tables under which no character beyond ASCII is a digit, alphanumeric or
    cased; used to evaluate the functions on ASCII inputs. *)
Definition ascii_tables : unicode_tables :=
  {| uni_todecimal := fun _ => None;
     uni_isalnum := fun _ => false;
     uni_tolower := fun c => c;
     uni_lower := fun _ c _ => [c] |}.

(** The lower case of an ASCII character. *)
Definition ascii_to_lower (c : char) : char :=
  if ascii_upper c then (c + 32)%N else c.

Section Chars.
Variable U : unicode_tables.

Definition todecimal (c : char) : option N :=
  if is_ascii c then (if ascii_digit c then Some (c - 48)%N else None)
  else uni_todecimal U c.

Definition is_decimal (c : char) : bool :=
  match todecimal c with Some _ => true | None => false end.

Definition is_alnum (c : char) : bool :=
  if is_ascii c then ascii_digit c || ascii_upper c || ascii_lower c
  else uni_isalnum U c || is_decimal c.

Definition is_word (c : char) : bool := is_alnum c || (c =? 95)%N.

Definition sre_lower (c : char) : char :=
  if is_ascii c then ascii_to_lower c else uni_tolower U c.

(** Whitespace characters have no case. *)
Definition lower_char (before : str) (c : char) (after : str) : str :=
  if is_ascii c then [ascii_to_lower c]
  else if is_space c then [c]
  else uni_lower U before c after.

Fixpoint lower_from (before : str) (s : str) : str :=
  match s with
  | [] => []
  | c :: s' => lower_char before c s' ++ lower_from (c :: before) s'
  end.

(** [s.lower()] *)
Definition py_lower (s : str) : str := lower_from [] s.

End Chars.

(** ** String methods *)

Fixpoint str_eqb (a b : str) : bool :=
  match a, b with
  | [], [] => true
  | x :: a', y :: b' => (x =? y)%N && str_eqb a' b'
  | _, _ => false
  end.

(** [s.startswith(p)] *)
Fixpoint startswith (s p : str) : bool :=
  match p, s with
  | [], _ => true
  | x :: p', y :: s' => (x =? y)%N && startswith s' p'
  | _ :: _, [] => false
  end.

(** [s.endswith(p)] *)
Definition endswith (s p : str) : bool := startswith (rev s) (rev p).

(** [needle in hay] *)
Fixpoint contains (needle hay : str) : bool :=
  startswith hay needle ||
  match hay with
  | [] => false
  | _ :: hay' => contains needle hay'
  end.

(** [s[a:b]] for [0 <= a], [0 <= b] *)
Definition slice (s : str) (a b : nat) : str := firstn (b - a) (skipn a s).

Fixpoint lstrip (s : str) : str :=
  match s with
  | c :: s' => if is_space c then lstrip s' else s
  | [] => []
  end.

Definition rstrip (s : str) : str := rev (lstrip (rev s)).

(** [s.strip()] *)
Definition py_strip (s : str) : str := rstrip (lstrip s).

(** [s.split()]: the maximal runs of non-whitespace characters; [cur] is the
    run being read. *)
Fixpoint split_ws (cur : str) (s : str) : list str :=
  match s with
  | [] => match cur with [] => [] | _ => [cur] end
  | c :: s' =>
      if is_space c
      then match cur with [] => split_ws [] s' | _ => cur :: split_ws [] s' end
      else split_ws (cur ++ [c]) s'
  end.

Definition py_split_ws (s : str) : list str := split_ws [] s.

(** [s.split(sep)] for a one-character separator: always at least one piece. *)
Fixpoint split_on (sep : char) (cur : str) (s : str) : list str :=
  match s with
  | [] => [cur]
  | c :: s' =>
      if (c =? sep)%N then cur :: split_on sep [] s'
      else split_on sep (cur ++ [c]) s'
  end.

Definition py_split (sep : char) (s : str) : list str := split_on sep [] s.

(** [sep.join(parts)] *)
Fixpoint py_join (sep : str) (parts : list str) : str :=
  match parts with
  | [] => []
  | [p] => p
  | p :: rest => p ++ sep ++ py_join sep rest
  end.

(** ** Exceptions *)

Inductive exn := IndexError | ValueError | TypeError.

Inductive result (A : Type) :=
| Ok (a : A)
| Raise (e : exn).
Arguments Ok {A} a.
Arguments Raise {A} e.

Definition bind {A B : Type} (m : result A) (f : A -> result B) : result B :=
  match m with
  | Ok a => f a
  | Raise e => Raise e
  end.

Notation "x <- m ;; k" := (bind m (fun x => k))
  (at level 61, m at next level, right associativity).

(** A [for] loop whose body may raise: the state is threaded through the
    items in order and the first exception ends the loop. *)
Fixpoint for_each {A S : Type} (body : S -> A -> result S) (items : list A)
    (st : S) : result S :=
  match items with
  | [] => Ok st
  | a :: rest => st' <- body st a ;; for_each body rest st'
  end.

(** [enumerate(l)] *)
Fixpoint enumerate_from {A : Type} (i : nat) (l : list A) : list (nat * A) :=
  match l with
  | [] => []
  | a :: rest => (i, a) :: enumerate_from (S i) rest
  end.

Definition enumerate {A : Type} (l : list A) : list (nat * A) :=
  enumerate_from 0 l.

(** ** Regular expressions *)

(** Sets of characters: literals, ranges, the classes [\d \s \w], the dot,
    and unions (a bracket expression). [CLitI] is a cased literal compiled
    under [re.IGNORECASE]. *)
Inductive cset :=
| CLit (c : char)
| CLitI (c : char)
| CRange (lo hi : char)
| CDigit
| CSpace
| CWord
| CAny
| CUnion (a b : cset).

(** The patterns of the source repeat single characters only, so repetition
    is over a [cset]; [hi = None] is an unbounded repetition. *)
Inductive regex :=
| REps
| RChar (c : cset)
| RRep (c : cset) (lo : nat) (hi : option nat) (greedy : bool)
| RSeq (a b : regex)
| RAlt (a b : regex)
| RGroup (n : nat) (a : regex)
| RBol
| REol.

(** A literal string. *)
Fixpoint rlit (s : str) : regex :=
  match s with
  | [] => REps
  | [c] => RChar (CLit c)
  | c :: s' => RSeq (RChar (CLit c)) (rlit s')
  end.

(** A literal string under [re.IGNORECASE]: the cased characters (here the
    ASCII letters) are compared through their lower case. *)
Fixpoint rlit_i (s : str) : regex :=
  let lit c :=
    if ascii_upper c then CLitI (c + 32)
    else if ascii_lower c then CLitI c else CLit c in
  match s with
  | [] => REps
  | [c] => RChar (lit c)
  | c :: s' => RSeq (RChar (lit c)) (rlit_i s')
  end.

(** The capture groups set so far: group number, start and end index. *)
Definition spans := list (nat * (nat * nat)).

Definition set_span (n : nat) (sp : nat * nat) (g : spans) : spans :=
  (n, sp) :: g.

Fixpoint get_span (n : nat) (g : spans) : option (nat * nat) :=
  match g with
  | [] => None
  | (m, sp) :: g' => if Nat.eqb m n then Some sp else get_span n g'
  end.

Definition orelse {A : Type} (a b : option A) : option A :=
  match a with
  | Some x => Some x
  | None => b
  end.

(** The lower-case letters that [re.IGNORECASE] identifies with an ASCII
    letter besides its own upper case (sre's table of equivalences): dotless
    i with i, long s with s. *)
Definition ignorecase_fixes (lo : char) : list char :=
  if (lo =? 105)%N then [305%N]
  else if (lo =? 115)%N then [383%N] else [].

Section Matcher.
Variable U : unicode_tables.

Fixpoint cs_in (cs : cset) (x : char) : bool :=
  match cs with
  | CLit c => (x =? c)%N
  | CLitI lo =>
      let l := sre_lower U x in
      (l =? lo)%N || existsb (N.eqb l) (ignorecase_fixes lo)
  | CRange lo hi => in_range lo hi x
  | CDigit => is_decimal U x
  | CSpace => is_space x
  | CWord => is_word U x
  | CAny => negb (x =? 10)%N
  | CUnion a b => cs_in a x || cs_in b x
  end.

Definition below (hi : option nat) (n : nat) : Prop :=
  match hi with
  | None => True
  | Some h => n <= h
  end.

Section Engine.
Variable A : Type.

(** What is left to match: called with the index reached, the rest of the
    subject and the groups. *)
Definition kont := nat -> str -> spans -> option A.

(** [c{lo,hi}] (greedy) and [c{lo,hi}?] (lazy) at index [i], the subject
    from there being [s]. *)
Fixpoint rep (c : cset) (greedy : bool) (lo : nat) (hi : option nat)
    (i : nat) (s : str) (g : spans) (k : kont) {struct s} : option A :=
  let stop := match lo with 0 => k i s g | S _ => None end in
  let more :=
    match hi with
    | Some 0 => None
    | _ =>
        match s with
        | x :: s' =>
            if cs_in c x
            then rep c greedy (pred lo) (option_map pred hi) (S i) s' g k
            else None
        | [] => None
        end
    end in
  if greedy then orelse more stop else orelse stop more.

Fixpoint rmatch (r : regex) (i : nat) (s : str) (g : spans) (k : kont)
    : option A :=
  match r with
  | REps => k i s g
  | RChar c =>
      match s with
      | x :: s' => if cs_in c x then k (S i) s' g else None
      | [] => None
      end
  | RRep c lo hi greedy => rep c greedy lo hi i s g k
  | RSeq a b => rmatch a i s g (fun j s' g' => rmatch b j s' g' k)
  | RAlt a b => orelse (rmatch a i s g k) (rmatch b i s g k)
  | RGroup n a => rmatch a i s g (fun j s' g' => k j s' (set_span n (i, j) g'))
  | RBol => if Nat.eqb i 0 then k i s g else None
  | REol =>
      match s with
      | [] => k i s g
      | [c] => if (c =? 10)%N then k i s g else None
      | _ => None
      end
  end.

End Engine.

(** A match at index [i] exactly: the end index and the groups. *)
Definition match_here (r : regex) (i : nat) (s : str) : option (nat * spans) :=
  rmatch r i s [] (fun j _ g => Some (j, g)).

(** A match object: the subject, the span of the whole match, the groups. *)
Record mobj := {
  m_string : str;
  m_start : nat;
  m_end : nat;
  m_spans : spans
}.

(** [m.group(n)]: [None] for a group that took no part in the match. *)
Definition group (m : mobj) (n : nat) : option str :=
  match n with
  | 0 => Some (slice (m_string m) (m_start m) (m_end m))
  | _ =>
      match get_span n (m_spans m) with
      | Some (a, b) => Some (slice (m_string m) a b)
      | None => None
      end
  end.

(** [re.match(r, subject)] *)
Definition re_match (r : regex) (subject : str) : option mobj :=
  match match_here r 0 subject with
  | Some (j, g) => Some (Build_mobj subject 0 j g)
  | None => None
  end.

(** The leftmost match starting at index [i] or later; [s] is the subject
    from [i] on. *)
Fixpoint search_from (r : regex) (subject : str) (i : nat) (s : str)
    : option mobj :=
  match match_here r i s with
  | Some (j, g) => Some (Build_mobj subject i j g)
  | None =>
      match s with
      | [] => None
      | _ :: s' => search_from r subject (S i) s'
      end
  end.

(** [re.search(r, subject)] *)
Definition re_search (r : regex) (subject : str) : option mobj :=
  search_from r subject 0 subject.

(** The scan behind [re.finditer] and [re.sub]: the leftmost match, then the
    leftmost match from where it ended, and so on. [skip] counts the
    characters of the last match still to be passed over. A pattern of the
    source never matches the empty string ([never_empty] below); after an
    empty match the scan moves on by one character. *)
Fixpoint scan (r : regex) (subject : str) (i : nat) (s : str) (skip : nat)
    : list mobj :=
  match skip with
  | S k =>
      match s with
      | [] => []
      | _ :: s' => scan r subject (S i) s' k
      end
  | 0 =>
      match match_here r i s with
      | Some (j, g) =>
          Build_mobj subject i j g ::
          match s with
          | [] => []
          | _ :: s' => scan r subject (S i) s' (pred (j - i))
          end
      | None =>
          match s with
          | [] => []
          | _ :: s' => scan r subject (S i) s' 0
          end
      end
  end.

(** [list(re.finditer(r, subject))] *)
Definition finditer (r : regex) (subject : str) : list mobj :=
  scan r subject 0 subject 0.

(** The subject from index [pos] on with each match replaced by [repl]. *)
Fixpoint splice (subject : str) (repl : str) (pos : nat) (ms : list mobj)
    : str :=
  match ms with
  | [] => skipn pos subject
  | m :: ms' =>
      slice subject pos (m_start m) ++ repl ++ splice subject repl (m_end m) ms'
  end.

(** [re.sub(r, repl, subject)] for a replacement without group references. *)
Definition re_sub (r : regex) (repl : str) (subject : str) : str :=
  splice subject repl 0 (finditer r subject).

End Matcher.

(** [rcat [r1; ...; rn]] is the concatenation [r1 ... rn]. *)
Fixpoint rcat (rs : list regex) : regex :=
  match rs with
  | [] => REps
  | [r] => r
  | r :: rs' => RSeq r (rcat rs')
  end.

Definition upper : cset := CRange 65 90.

(** ** The patterns of the source *)

(** [\[note \d+\]] *)
Definition note_pattern : regex :=
  rcat [rlit (py "[note "); RRep CDigit 1 None true; RChar (CLit 93)].

(** [^[A-Z]{2}$], [^[A-Z]{3}$], [^\d{3}$] *)
Definition alpha2_pattern : regex :=
  rcat [RBol; RRep upper 2 (Some 2) true; REol].
Definition alpha3_pattern : regex :=
  rcat [RBol; RRep upper 3 (Some 3) true; REol].
Definition numeric_pattern : regex :=
  rcat [RBol; RRep CDigit 3 (Some 3) true; REol].

(** [(\d{4})[–\-](\d{4})]: the dash is U+2013 EN DASH or the hyphen. *)
Definition period_pattern : regex :=
  rcat [RGroup 1 (RRep CDigit 4 (Some 4) true);
        RChar (CUnion (CLit 8211) (CLit 45));
        RGroup 2 (RRep CDigit 4 (Some 4) true)].

(** [\(([A-Z]{2}),\s*([A-Z]{2,3}),\s*(\d{3,4})\)] *)
Definition code_pattern : regex :=
  rcat [RChar (CLit 40);
        RGroup 1 (RRep upper 2 (Some 2) true);
        RChar (CLit 44); RRep CSpace 0 None true;
        RGroup 2 (RRep upper 2 (Some 3) true);
        RChar (CLit 44); RRep CSpace 0 None true;
        RGroup 3 (RRep CDigit 3 (Some 4) true);
        RChar (CLit 41)].

(** [^(?:Divided into:|Split into:)\s*] with [flags=re.IGNORECASE] *)
Definition keyword_pattern : regex :=
  rcat [RBol;
        RAlt (rlit_i (py "Divided into:")) (rlit_i (py "Split into:"));
        RRep CSpace 0 None true].

(** [([\w\s]+,?\s*Republic of)] and
    [([\w\s]+,?\s*Democratic Republic of the)] *)
Definition phrase_pattern (suffix : str) : regex :=
  RGroup 1 (rcat [RRep (CUnion CWord CSpace) 1 None true;
                  RRep (CLit 44) 0 (Some 1) true;
                  RRep CSpace 0 None true;
                  rlit suffix]).

(** [\s*\([A-Z]{2}.*?\)] *)
Definition trailing_codes_pattern : regex :=
  rcat [RRep CSpace 0 None true; RChar (CLit 40);
        RRep upper 2 (Some 2) true; RRep CAny 0 None false;
        RChar (CLit 41)].

(** ** The data model *)

(** A cell of the table as pandas gives it: text, or NaN for an empty cell. *)
Inductive cell :=
| NaN
| Str (s : str).

(** [str(x)] *)
Definition py_str (x : cell) : str :=
  match x with
  | NaN => py "nan"
  | Str s => s
  end.

(** [pd.isna(x) or not x] *)
Definition missing (x : cell) : bool :=
  match x with
  | NaN => true
  | Str [] => true
  | Str _ => false
  end.

(** A row of the table: column label to cell. *)
Definition RawRow := list (string * cell).

(** [row.get(label, default)] *)
Fixpoint row_get (row : RawRow) (label : string) (default : cell) : cell :=
  match row with
  | [] => default
  | (l, v) :: row' => if String.eqb l label then v else row_get row' label default
  end.

Record former_codes := {
  alpha2 : option str;
  alpha3 : option str;
  numeric : option str
}.

Record validity_period := {
  vp_start : option N;
  vp_end : option N
}.

Record successor := {
  s_name : str;
  s_alpha2 : option str;
  s_alpha3 : option str;
  s_numeric : option str
}.

Inductive transition_type := merged | name_changed | divided | other.

(** The string the source returns for each type. *)
Definition type_name (t : transition_type) : str :=
  match t with
  | merged => py "merged"
  | name_changed => py "name_changed"
  | divided => py "divided"
  | other => py "other"
  end.

Record former_country := {
  fc_name : str;
  fc_alpha2 : option str;
  fc_alpha3 : option str;
  fc_numeric : option str;
  fc_iso_3166_3_alpha4 : option str
}.

Record transition := {
  t_type : transition_type;
  t_successors : list successor
}.

Record country_record := {
  r_former_country : former_country;
  r_validity_period : validity_period;
  r_transition : transition
}.

Record metadata := {
  md_title : str;
  md_description : str;
  md_source : str;
  md_standard : str;
  md_version : str;
  md_total_records : nat;
  md_last_updated : str
}.

Record dataset := {
  ds_metadata : metadata;
  ds_countries : list country_record
}.

(** A reading of the clock, [datetime.now()]. *)
Record datetime := {
  dt_year : N;
  dt_month : N;
  dt_day : N
}.

Definition digit_char (n : N) : char := (48 + n mod 10)%N.

Definition two_digits (n : N) : str := [digit_char (n / 10); digit_char n].

Definition four_digits (n : N) : str :=
  [digit_char (n / 1000); digit_char (n / 100); digit_char (n / 10);
   digit_char n].

(** [t.strftime("%Y-%m")] and [t.strftime("%Y-%m-%d")] *)
Definition strftime_Ym (t : datetime) : str :=
  four_digits (dt_year t) ++ [45%N] ++ two_digits (dt_month t).

Definition strftime_Ymd (t : datetime) : str :=
  strftime_Ym t ++ [45%N] ++ two_digits (dt_day t).

(** ** The scraper's methods *)

Section Scraper.
Variable U : unicode_tables.

(** [self.url] *)
Definition url : str := py "https://en.wikipedia.org/wiki/ISO_3166-3".

Definition prefixes : list str :=
  [py "Merged into "; py "Name changed to "; py "Divided into:";
   py "Divided into: "; py "Split into "].

(** The loop over [prefixes]: each is tested against the name as the
    earlier ones left it. *)
Definition strip_prefixes (name : str) : str :=
  fold_left
    (fun name prefix =>
       if startswith name prefix then skipn (List.length prefix) name
       else name)
    prefixes name.

Definition clean_country_name (name : cell) : str :=
  if missing name then []
  else
    let name := py_str name in
    let name := re_sub U note_pattern [] name in
    let name := strip_prefixes name in
    py_strip (py_join [32%N] (py_split_ws name)).

Definition is_some {A : Type} (o : option A) : bool :=
  match o with
  | Some _ => true
  | None => false
  end.

Definition parse_former_codes (codes_str : cell) : former_codes :=
  let result := {| alpha2 := None; alpha3 := None; numeric := None |} in
  if missing codes_str then result
  else
    let codes_str := py_strip (py_str codes_str) in
    let parts := map py_strip (py_split 44 codes_str) in
    fold_left
      (fun result part =>
         if is_some (re_match U alpha2_pattern part)
         then {| alpha2 := Some part; alpha3 := alpha3 result;
                 numeric := numeric result |}
         else if is_some (re_match U alpha3_pattern part)
         then {| alpha2 := alpha2 result; alpha3 := Some part;
                 numeric := numeric result |}
         else if is_some (re_match U numeric_pattern part)
         then {| alpha2 := alpha2 result; alpha3 := alpha3 result;
                 numeric := Some part |}
         else result)
      parts result.

(** The value of a string of decimal digits, most significant first. *)
Fixpoint digits_value (acc : N) (s : str) : option N :=
  match s with
  | [] => Some acc
  | c :: s' =>
      match todecimal U c with
      | Some d => digits_value (10 * acc + d) s'
      | None => None
      end
  end.

(** [int(x)] where [x] is what [m.group(n)] returned: [None] is a
    [TypeError]; a non-empty string of decimal digits is its value. The
    source passes nothing else; other strings raise [ValueError] here. *)
Definition py_int (x : option str) : result N :=
  match x with
  | None => Raise TypeError
  | Some [] => Raise ValueError
  | Some s =>
      match digits_value 0 s with
      | Some n => Ok n
      | None => Raise ValueError
      end
  end.

Definition parse_validity_period (period_str : cell)
    : result validity_period :=
  let result := {| vp_start := None; vp_end := None |} in
  if missing period_str then Ok result
  else
    let period_str := py_strip (py_str period_str) in
    match re_search U period_pattern period_str with
    | Some m =>
        start <- py_int (group m 1) ;;
        end_ <- py_int (group m 2) ;;
        Ok {| vp_start := Some start; vp_end := Some end_ |}
    | None => Ok result
    end.

(** [re.sub(pattern, repl, x)] where [x] is what [m.group(n)] returned. *)
Definition re_sub_opt (r : regex) (repl : str) (x : option str) : result str :=
  match x with
  | None => Raise TypeError
  | Some s => Ok (re_sub U r repl s)
  end.

(** The incomplete names and the pattern of each, in the order of the
    dictionary. *)
Definition patterns : list (str * regex) :=
  [(py "Republic of", phrase_pattern (py "Republic of"));
   (py "Democratic Republic of the",
    phrase_pattern (py "Democratic Republic of the"))].

(** The loop over [patterns.items()], which returns from the function at the
    first name found in the description. *)
Fixpoint fix_loop (items : list (str * regex)) (name raw_description : str)
    : result str :=
  match items with
  | [] => Ok name
  | (incomplete, pattern) :: rest =>
      if str_eqb name incomplete || endswith name incomplete
      then
        match re_search U pattern raw_description with
        | Some m =>
            full_name <- re_sub_opt trailing_codes_pattern [] (group m 1) ;;
            Ok (py_strip full_name)
        | None => fix_loop rest name raw_description
        end
      else fix_loop rest name raw_description
  end.

Definition fix_incomplete_name (name raw_description : str) : result str :=
  match name with
  | [] => Ok name
  | _ =>
      if 25 <? List.length name then Ok name
      else fix_loop patterns name raw_description
  end.

(** [code_matches[i]] *)
Definition index {A : Type} (l : list A) (i : nat) : result A :=
  match nth_error l i with
  | Some a => Ok a
  | None => Raise IndexError
  end.

(** The body of the loop of [parse_successors] for the [i]-th match. *)
Definition successor_step (successor_str raw_desc : str)
    (code_matches : list mobj) (successors : list successor)
    (item : nat * mobj) : result (list successor) :=
  let (i, code_match) := item in
  start_pos <- (if 0 <? i
                then m <- index code_matches (i - 1) ;; Ok (m_end m)
                else Ok 0) ;;
  let end_pos := m_start code_match in
  let country_name_raw := py_strip (slice successor_str start_pos end_pos) in
  let country_name_raw := re_sub U keyword_pattern [] country_name_raw in
  let country_name_raw := re_sub U note_pattern [] country_name_raw in
  let country_name := clean_country_name (Str (py_strip country_name_raw)) in
  match country_name with
  | [] => Ok successors
  | _ =>
      if List.length country_name <? 3 then Ok successors
      else
        country_name <- fix_incomplete_name country_name raw_desc ;;
        Ok (successors ++
            [{| s_name := country_name;
                s_alpha2 := group code_match 1;
                s_alpha3 := group code_match 2;
                s_numeric := group code_match 3 |}])
  end.

Definition parse_successors (successor_str : cell) (raw_desc : str)
    : result (list successor) :=
  let successors := [] in
  if missing successor_str then Ok successors
  else
    let successor_str := py_str successor_str in
    let code_matches := finditer U code_pattern successor_str in
    match code_matches with
    | [] => Ok successors
    | _ =>
        for_each (successor_step successor_str raw_desc code_matches)
          (enumerate code_matches) successors
    end.

Definition determine_transition_type (successor_str : cell)
    : transition_type :=
  if missing successor_str then other
  else
    let desc_lower := py_lower U (py_str successor_str) in
    if contains (py "merged into") desc_lower then merged
    else if contains (py "name changed") desc_lower then name_changed
    else if contains (py "divided into") desc_lower
            || contains (py "split into") desc_lower then divided
    else other.

Definition process_record (row : RawRow) : result country_record :=
  let former_codes := parse_former_codes (row_get row "Former codes" (Str [])) in
  validity <- parse_validity_period
                (row_get row "Period of validity" (Str [])) ;;
  let raw_desc :=
    py_str (row_get row "New country names and codes" (Str [])) in
  successors <- parse_successors (Str raw_desc) raw_desc ;;
  let transition_type := determine_transition_type (Str raw_desc) in
  let former_name :=
    clean_country_name (row_get row "Former country name" (Str [])) in
  let iso_3166_3_code :=
    py_strip (py_str (row_get row "ISO 3166-3 code" (Str []))) in
  let iso_3166_3_code :=
    if str_eqb iso_3166_3_code (py "nan") then None
    else Some iso_3166_3_code in
  Ok {| r_former_country :=
          {| fc_name := former_name;
             fc_alpha2 := alpha2 former_codes;
             fc_alpha3 := alpha3 former_codes;
             fc_numeric := numeric former_codes;
             fc_iso_3166_3_alpha4 := iso_3166_3_code |};
        r_validity_period := validity;
        r_transition :=
          {| t_type := transition_type; t_successors := successors |} |}.

End Scraper.

(** The table [fetch_table] returns: its rows in order, each under its index
    label ([pd.read_html] numbers them from 0). *)
Definition DataFrame := list RawRow.

Definition iterrows (df : DataFrame) : list (nat * RawRow) := enumerate df.

Section Pipeline.
(** The method the loop calls on each row, [self.process_record]. *)
Variable process : RawRow -> result country_record.

(** The body of the loop of [scrape_and_clean]: [try] the row, [except] any
    exception and note it under the row's index. The state is
    [(clean_records, errors)]. *)
Definition scrape_step (st : list country_record * list (nat * exn))
    (item : nat * RawRow) : list country_record * list (nat * exn) :=
  let (clean_records, errors) := st in
  let (idx, row) := item in
  match process row with
  | Ok record => (clean_records ++ [record], errors)
  | Raise e => (clean_records, errors ++ [(idx, e)])
  end.

Definition scrape_loop (df : DataFrame)
    : list country_record * list (nat * exn) :=
  fold_left scrape_step (iterrows df) ([], []).

(** [scrape_and_clean] from the table on; [now1] and [now2] are the two
    readings of the clock. The second component is the list of errors it
    prints. *)
Definition scrape_and_clean_with (now1 now2 : datetime) (df : DataFrame)
    : dataset * list (nat * exn) :=
  let (clean_records, errors) := scrape_loop df in
  ({| ds_metadata :=
        {| md_title := py "ISO 3166-3: Formerly Used Country Codes";
           md_description :=
             py "Codes for country names which have been deleted from ISO 3166-1 since its first publication in 1974";
           md_source := url;
           md_standard := py "ISO 3166-3";
           md_version := strftime_Ym now1;
           md_total_records := List.length clean_records;
           md_last_updated := strftime_Ymd now2 |};
      ds_countries := clean_records |}, errors).

End Pipeline.

Definition scrape_and_clean (U : unicode_tables) :=
  scrape_and_clean_with (process_record U).

(** ** The fallback of [fetch_table] *)

(** The loop of [max(l, key=key)]: a later element replaces the best so far
    only when its key is greater. *)
Fixpoint max_from {A : Type} (key : A -> nat) (best : A) (l : list A) : A :=
  match l with
  | [] => best
  | a :: rest =>
      if key best <? key a then max_from key a rest
      else max_from key best rest
  end.

(** [max(l, key=key)]; a [ValueError] for the empty list. *)
Definition py_max {A : Type} (key : A -> nat) (l : list A) : result A :=
  match l with
  | [] => Raise ValueError
  | a :: rest => Ok (max_from key a rest)
  end.

(** [max(tables, key=lambda x: x.shape[0])] *)
Definition largest_table (tables : list DataFrame) : result DataFrame :=
  py_max (@List.length RawRow) tables.

(** ** The summary of [save_json] *)

(** A [dict] from strings to counts, its keys in the order of insertion. *)
Definition dict := list (str * nat).

(** [d.get(k, default)] *)
Fixpoint dict_get (d : dict) (k : str) (default : nat) : nat :=
  match d with
  | [] => default
  | (k', v) :: d' => if str_eqb k' k then v else dict_get d' k default
  end.

(** [d[k] = v] *)
Fixpoint dict_set (d : dict) (k : str) (v : nat) : dict :=
  match d with
  | [] => [(k, v)]
  | (k', v') :: d' =>
      if str_eqb k' k then (k', v) :: d' else (k', v') :: dict_set d' k v
  end.

(** [sum(d.values())] *)
Definition dict_sum (d : dict) : nat :=
  fold_right (fun kv acc => snd kv + acc) 0 d.

(** The loop that counts the transition types. *)
Definition transition_counts (data : dataset) : dict :=
  fold_left
    (fun transition_counts country =>
       let t_type := type_name (t_type (r_transition country)) in
       dict_set transition_counts t_type
         (dict_get transition_counts t_type 0 + 1))
    (ds_countries data) [].

(** [str(n)] for an integer that is not negative. *)
Definition py_str_int (n : N) : str :=
  py (DecimalString.NilZero.string_of_uint (N.to_uint n)).

(** The label of the loop by decade, [f"{str(start)[:3]}0s"]. *)
Definition decade_label (start : N) : str :=
  slice (py_str_int start) 0 3 ++ py "0s".

(** The loop that counts by decade; [if start:] passes over an absent start
    and over the year 0. *)
Definition decade_counts (data : dataset) : dict :=
  fold_left
    (fun decade_counts country =>
       match vp_start (r_validity_period country) with
       | Some start =>
           if (start =? 0)%N then decade_counts
           else
             let decade := decade_label start in
             dict_set decade_counts decade
               (dict_get decade_counts decade 0 + 1)
       | None => decade_counts
       end)
    (ds_countries data) [].

(** * Properties *)

Ltac splits := repeat match goal with |- _ /\ _ => split end.

(** ** What the matcher accepts *)

Section Semantics.
Variable U : unicode_tables.

(** [accepts r i s n g g']: at index [i], the subject from there on being
    [s], the pattern [r] matches the first [n] characters of [s] and turns
    the groups [g] into [g']. *)
Fixpoint accepts (r : regex) (i : nat) (s : str) (n : nat) (g g' : spans)
    : Prop :=
  match r with
  | REps => n = 0 /\ g' = g
  | RChar c => exists x s', s = x :: s' /\ cs_in U c x = true /\ n = 1 /\ g' = g
  | RRep c lo hi _ =>
      lo <= n /\ below hi n /\ n <= List.length s /\
      Forall (fun x => cs_in U c x = true) (firstn n s) /\ g' = g
  | RSeq a b =>
      exists n1 n2 g1,
        n = n1 + n2 /\ accepts a i s n1 g g1 /\
        accepts b (i + n1) (skipn n1 s) n2 g1 g'
  | RAlt a b => accepts a i s n g g' \/ accepts b i s n g g'
  | RGroup m a => exists g1, accepts a i s n g g1 /\ g' = set_span m (i, i + n) g1
  | RBol => i = 0 /\ n = 0 /\ g' = g
  | REol => n = 0 /\ (s = [] \/ s = [10%N]) /\ g' = g
  end.

Lemma accepts_bound r : forall i s n g g',
  accepts r i s n g g' -> n <= List.length s.
Proof.
  induction r; simpl; intros i s n0 g g' H.
  - destruct H; subst; lia.
  - destruct H as (x & s' & -> & _ & -> & _); simpl; lia.
  - tauto.
  - destruct H as (n1 & n2 & g1 & -> & H1 & H2).
    apply IHr1 in H1. apply IHr2 in H2.
    rewrite length_skipn in H2. lia.
  - destruct H as [H | H]; eauto.
  - destruct H as (g1 & H & _); eauto.
  - destruct H as (_ & -> & _); lia.
  - destruct H as (-> & _); lia.
Qed.

Section Correct.
Variable A : Type.
Implicit Type k : kont A.

Lemma rep_sound c greedy : forall s lo hi i g k x,
  rep U c greedy lo hi i s g k = Some x ->
  exists n, lo <= n /\ below hi n /\ n <= List.length s /\
            Forall (fun y => cs_in U c y = true) (firstn n s) /\
            k (i + n) (skipn n s) g = Some x.
Proof.
  assert (Hstop : forall s lo hi i g k x,
    match lo with 0 => k i s g | S _ => None end = Some x ->
    exists n, lo <= n /\ below hi n /\ n <= List.length s /\
              Forall (fun y => cs_in U c y = true) (firstn n s) /\
              k (i + n) (skipn n s) g = Some x).
  { intros s lo hi i g k x H. destruct lo; [|discriminate].
    exists 0. rewrite Nat.add_0_r. simpl.
    repeat split; auto; try lia. destruct hi; simpl; lia. }
  induction s as [|y s IH]; intros lo hi i g k x H; simpl in H.
  - assert (H' : match lo with 0 => k i [] g | S _ => None end = Some x).
    { destruct lo;
        [destruct greedy, hi as [[|h]|]; simpl in H;
         destruct (k i [] g); simpl in H; congruence
        |destruct greedy, hi as [[|h]|]; discriminate]. }
    eapply Hstop; eauto.
  - set (stop := match lo with 0 => k i (y :: s) g | S _ => None end) in *.
    set (more := match hi with
                 | Some 0 => None
                 | _ => if cs_in U c y
                        then rep U c greedy (pred lo) (option_map pred hi)
                               (S i) s g k
                        else None
                 end) in *.
    assert (Hor : more = Some x \/ stop = Some x).
    { destruct greedy, more, stop; simpl in H; auto; discriminate. }
    destruct Hor as [Hm | Hs]; [|eapply Hstop; eauto].
    subst more.
    assert (Hhi : hi <> Some 0) by (intros ->; discriminate).
    assert (Hm' : (if cs_in U c y
                   then rep U c greedy (pred lo) (option_map pred hi)
                          (S i) s g k else None) = Some x).
    { destruct hi as [[|h]|]; auto; congruence. }
    destruct (cs_in U c y) eqn:Hy; [|discriminate].
    apply IH in Hm'. destruct Hm' as (n & Hlo & Hb & Hlen & Hall & Hk).
    exists (S n). rewrite Nat.add_succ_r. simpl.
    repeat split; auto; try lia.
    destruct hi as [[|h]|]; simpl in *; auto; try congruence; lia.
Qed.

Lemma rep_complete c greedy : forall s lo hi i g k,
  rep U c greedy lo hi i s g k = None ->
  forall n, lo <= n -> below hi n -> n <= List.length s ->
            Forall (fun y => cs_in U c y = true) (firstn n s) ->
            k (i + n) (skipn n s) g = None.
Proof.
  induction s as [|y s IH]; intros lo hi i g k H n Hlo Hb Hlen Hall.
  - simpl in Hlen. assert (n = 0) by lia. subst n.
    assert (lo = 0) by lia. subst lo. rewrite Nat.add_0_r. simpl in *.
    destruct greedy, hi as [[|h]|]; simpl in H; auto;
      destruct (k i [] g); auto; discriminate.
  - simpl in H.
    set (stop := match lo with 0 => k i (y :: s) g | S _ => None end) in *.
    set (more := match hi with
                 | Some 0 => None
                 | _ => if cs_in U c y
                        then rep U c greedy (pred lo) (option_map pred hi)
                               (S i) s g k
                        else None
                 end) in *.
    assert (Hboth : more = None /\ stop = None).
    { destruct greedy, more, stop; simpl in H; auto; discriminate. }
    destruct Hboth as [Hm Hs]. destruct n as [|n].
    + assert (lo = 0) by lia. subst lo stop.
      rewrite Nat.add_0_r. exact Hs.
    + simpl in Hall. inversion Hall as [|? ? Hy Hall']; subst.
      subst more. rewrite Hy in Hm.
      assert (Hm' : rep U c greedy (pred lo) (option_map pred hi)
                      (S i) s g k = None).
      { destruct hi as [[|h]|]; simpl in *; auto; lia. }
      rewrite Nat.add_succ_r. simpl.
      apply (IH _ _ _ _ _ Hm'); simpl in *; auto; try lia.
      destruct hi as [[|h]|]; simpl in *; auto; lia.
Qed.

(** The matcher finds only what the pattern accepts ... *)
Lemma rmatch_sound r : forall i s g k x,
  rmatch U r i s g k = Some x ->
  exists n g', accepts r i s n g g' /\ k (i + n) (skipn n s) g' = Some x.
Proof.
  induction r; simpl; intros i s g k x H.
  - exists 0, g. rewrite Nat.add_0_r. auto.
  - destruct s as [|y s]; [discriminate|].
    destruct (cs_in U c y) eqn:Hy; [|discriminate].
    exists 1, g. rewrite Nat.add_1_r. simpl. split; eauto 7.
  - apply rep_sound in H. destruct H as (n & ? & ? & ? & ? & ?).
    exists n, g. auto 7.
  - apply IHr1 in H. destruct H as (n1 & g1 & H1 & H).
    apply IHr2 in H. destruct H as (n2 & g2 & H2 & H).
    exists (n1 + n2), g2. rewrite skipn_skipn in H.
    rewrite Nat.add_assoc, (Nat.add_comm n1 n2). split; auto.
    exists n1, n2, g1. rewrite (Nat.add_comm n2 n1). auto.
  - destruct (rmatch U r1 i s g k) eqn:H1; simpl in H.
    + inversion H; subst. apply IHr1 in H1.
      destruct H1 as (n0 & g' & ? & ?). eauto.
    + apply IHr2 in H. destruct H as (n0 & g' & ? & ?). eauto.
  - apply IHr in H. destruct H as (n0 & g1 & H1 & H).
    exists n0, (set_span n (i, i + n0) g1). eauto.
  - destruct (Nat.eqb_spec i 0); [|discriminate].
    exists 0, g. rewrite Nat.add_0_r. auto.
  - exists 0, g. rewrite Nat.add_0_r. simpl.
    destruct s as [|c [|? ?]]; try discriminate; auto 6.
    destruct (N.eqb_spec c 10); [subst|discriminate]. auto 6.
Qed.

(** ... and fails only when every way of accepting is refused by what
    follows. *)
Lemma rmatch_complete r : forall i s g k,
  rmatch U r i s g k = None ->
  forall n g', accepts r i s n g g' -> k (i + n) (skipn n s) g' = None.
Proof.
  induction r; simpl; intros i s g k H n0 g' Hacc.
  - destruct Hacc; subst. rewrite Nat.add_0_r. auto.
  - destruct Hacc as (x & s' & -> & Hx & -> & ->).
    rewrite Hx in H. rewrite Nat.add_1_r. auto.
  - destruct Hacc as (? & ? & ? & ? & ->).
    eapply rep_complete; eauto.
  - destruct Hacc as (n1 & n2 & g1 & -> & H1 & H2).
    pose proof (IHr1 _ _ _ _ H _ _ H1) as H'.
    pose proof (IHr2 _ _ _ _ H' _ _ H2) as H''.
    rewrite skipn_skipn in H''.
    rewrite Nat.add_assoc, (Nat.add_comm n1 n2). auto.
  - destruct (rmatch U r1 i s g k) eqn:H1; simpl in H; [discriminate|].
    destruct Hacc; eauto.
  - destruct Hacc as (g1 & H1 & ->).
    apply (IHr _ _ _ _ H _ _ H1).
  - destruct Hacc as (-> & -> & ->). auto.
  - destruct Hacc as (-> & Hs & ->). rewrite Nat.add_0_r. simpl.
    destruct Hs; subst; auto.
Qed.

End Correct.

Lemma match_here_sound r i s j g :
  match_here U r i s = Some (j, g) ->
  exists n, j = i + n /\ accepts r i s n [] g.
Proof.
  unfold match_here. intros H. apply rmatch_sound in H.
  destruct H as (n & g' & Hacc & H). inversion H; subst. eauto.
Qed.

Lemma match_here_complete r i s :
  match_here U r i s = None -> forall n g, ~ accepts r i s n [] g.
Proof.
  unfold match_here. intros H n g Hacc.
  pose proof (rmatch_complete _ _ _ _ _ H _ _ Hacc). discriminate.
Qed.

End Semantics.

(** ** Searching and scanning *)

Section Scanning.
Variable U : unicode_tables.
Variable r : regex.
Variable subject : str.

(** An occurrence of [r] in [subject]: [n] characters from index [p] on,
    with groups [g]. *)
Definition occurs (p n : nat) (g : spans) : Prop :=
  p <= List.length subject /\ accepts U r p (skipn p subject) n [] g.

(** The pattern cannot match the empty string. *)
Definition never_empty : Prop :=
  forall i s n g g', accepts U r i s n g g' -> 0 < n.

(** [ms] are the matches a scan from index [pos] on finds: each an
    occurrence, none starting before the previous one ended, and no
    occurrence starting in between or after the last. *)
Fixpoint scanned (pos : nat) (ms : list mobj) : Prop :=
  match ms with
  | [] => forall p n g, pos <= p -> ~ occurs p n g
  | m :: ms' =>
      m_string m = subject /\
      pos <= m_start m /\ m_start m < m_end m /\
      occurs (m_start m) (m_end m - m_start m) (m_spans m) /\
      (forall p n g, pos <= p < m_start m -> ~ occurs p n g) /\
      scanned (m_end m) ms'
  end.

Lemma skipn_cons_inv {A : Type} : forall i (l : list A) y s',
  skipn i l = y :: s' -> skipn (S i) l = s' /\ i < List.length l.
Proof.
  induction i as [|i IH]; intros [|x l] y s' H; simpl in *; try discriminate.
  - inversion H; subst. split; auto. lia.
  - apply IH in H. destruct H as [H1 H2]. split; auto. lia.
Qed.

Lemma scanned_extend i ms :
  scanned (S i) ms -> (forall n g, ~ occurs i n g) -> scanned i ms.
Proof.
  intros H Hi. destruct ms as [|m ms]; simpl in *.
  - intros p n g Hp. destruct (Nat.eq_dec p i) as [->|]; auto.
    apply H. lia.
  - destruct H as (? & ? & ? & ? & Hgap & ?).
    splits; auto; try lia.
    intros p n g Hp. destruct (Nat.eq_dec p i) as [->|]; auto.
    apply Hgap. lia.
Qed.

Lemma scan_scanned : never_empty ->
  forall s i skip,
    s = skipn i subject -> i + skip <= List.length subject ->
    scanned (i + skip) (scan U r subject i s skip).
Proof.
  intros Hne. induction s as [|y s IH]; intros i skip Hs Hlen.
  - assert (Hi : i = List.length subject /\ skip = 0).
    { pose proof (length_skipn i subject) as L. rewrite <- Hs in L.
      simpl in L. lia. }
    destruct Hi as [Hi ->]. rewrite Nat.add_0_r. simpl.
    destruct (match_here U r i []) as [[j g]|] eqn:Hm.
    + apply match_here_sound in Hm. destruct Hm as (n & _ & Hacc).
      pose proof (accepts_bound _ _ _ _ _ _ _ Hacc) as Hb.
      apply Hne in Hacc. simpl in Hb. lia.
    + simpl. intros p n g Hp [Hp' Hacc].
      assert (p = i) by lia. subst p. rewrite <- Hs in Hacc.
      eapply match_here_complete; eauto.
  - symmetry in Hs. pose proof (skipn_cons_inv _ _ Hs) as [Hs' Hi].
    destruct skip as [|k]; simpl.
    + rewrite Nat.add_0_r.
      destruct (match_here U r i (y :: s)) as [[j g]|] eqn:Hm.
      * apply match_here_sound in Hm. destruct Hm as (n & -> & Hacc).
        pose proof (accepts_bound _ _ _ _ _ _ _ Hacc) as Hb.
        pose proof (Hne _ _ _ _ _ Hacc) as Hn.
        assert (Hl : List.length (y :: s) = List.length subject - i).
        { rewrite <- Hs. apply length_skipn. }
        simpl. replace (i + n - i) with n by lia.
        splits; auto; try lia.
        -- split; [lia | rewrite Hs; exact Hacc].
        -- replace (i + n) with (S i + pred n) by lia.
           apply IH; auto. lia.
      * apply scanned_extend.
        -- pose proof (IH (S i) 0 (eq_sym Hs')) as H0.
           rewrite Nat.add_0_r in H0. apply H0. lia.
        -- intros n g [_ Hacc]. rewrite Hs in Hacc.
           eapply match_here_complete; eauto.
    + replace (i + S k) with (S i + k) by lia. apply IH; auto. lia.
Qed.

(** [re.finditer] finds the occurrences from left to right. *)
Lemma finditer_scanned :
  never_empty -> scanned 0 (finditer U r subject).
Proof.
  intros Hne. unfold finditer.
  apply (@scan_scanned Hne subject 0 0); simpl; auto. lia.
Qed.

(** [re.search] finds the first occurrence. *)
Lemma search_from_spec : forall s i,
  s = skipn i subject -> i <= List.length subject ->
  match search_from U r subject i s with
  | Some m =>
      m_string m = subject /\ i <= m_start m /\
      occurs (m_start m) (m_end m - m_start m) (m_spans m) /\
      m_start m <= m_end m /\
      forall p n g, i <= p < m_start m -> ~ occurs p n g
  | None => forall p n g, i <= p -> ~ occurs p n g
  end.
Proof.
  induction s as [|y s IH]; intros i Hs Hlen; simpl.
  - destruct (match_here U r i []) as [[j g]|] eqn:Hm; simpl.
    + apply match_here_sound in Hm. destruct Hm as (n & -> & Hacc).
      replace (i + n - i) with n by lia.
      splits; auto; try lia.
      split; [lia | rewrite <- Hs; exact Hacc].
    + intros p n g Hp [Hp' Hacc].
      assert (List.length (skipn i subject) = 0) as L by (rewrite <- Hs; auto).
      rewrite length_skipn in L. assert (p = i) by lia. subst p.
      rewrite <- Hs in Hacc. eapply match_here_complete; eauto.
  - symmetry in Hs. pose proof (skipn_cons_inv _ _ Hs) as [Hs' Hi].
    destruct (match_here U r i (y :: s)) as [[j g]|] eqn:Hm; simpl.
    + apply match_here_sound in Hm. destruct Hm as (n & -> & Hacc).
      replace (i + n - i) with n by lia.
      splits; auto; try lia.
      split; [lia | rewrite Hs; exact Hacc].
    + assert (Hno : forall n g, ~ occurs i n g).
      { intros n g [_ Hacc]. rewrite Hs in Hacc.
        eapply match_here_complete; eauto. }
      specialize (IH (S i) (eq_sym Hs') Hi).
      destruct (search_from U r subject (S i) s) as [m|].
      * destruct IH as (? & ? & ? & ? & Hgap).
        splits; auto; try lia.
        intros p n g Hp. destruct (Nat.eq_dec p i) as [->|]; auto.
        apply Hgap. lia.
      * intros p n g Hp. destruct (Nat.eq_dec p i) as [->|]; auto.
        apply IH. lia.
Qed.

Lemma re_search_spec :
  match re_search U r subject with
  | Some m =>
      m_string m = subject /\
      occurs (m_start m) (m_end m - m_start m) (m_spans m) /\
      m_start m <= m_end m /\
      forall p n g, p < m_start m -> ~ occurs p n g
  | None => forall p n g, ~ occurs p n g
  end.
Proof.
  unfold re_search.
  pose proof (@search_from_spec subject 0 eq_refl (Nat.le_0_l _)) as H.
  destruct (search_from U r subject 0 subject) as [m|].
  - destruct H as (? & ? & ? & ? & Hgap). splits; auto.
    intros p n g Hp. apply Hgap. lia.
  - intros p n g. apply H. lia.
Qed.

End Scanning.

(** ** String methods *)

Lemma str_eqb_eq a : forall b, str_eqb a b = true <-> a = b.
Proof.
  induction a as [|x a IH]; intros [|y b]; simpl; split; intros H;
    try discriminate; auto.
  - apply andb_true_iff in H. destruct H as [Hx Ha].
    apply N.eqb_eq in Hx. apply IH in Ha. congruence.
  - inversion H; subst. rewrite N.eqb_refl. simpl. apply IH. auto.
Qed.

Lemma startswith_spec p : forall s,
  startswith s p = true <-> exists s', s = p ++ s'.
Proof.
  induction p as [|x p IH]; intros [|y s]; simpl.
  - split; eauto.
  - split; eauto.
  - split; [discriminate|]. intros (s' & H). discriminate.
  - rewrite andb_true_iff, N.eqb_eq, IH. split.
    + intros (-> & s' & ->). eauto.
    + intros (s' & H). inversion H; subst. eauto.
Qed.

Lemma endswith_spec s p :
  endswith s p = true <-> exists s', s = s' ++ p.
Proof.
  unfold endswith. rewrite startswith_spec. split; intros (s' & H).
  - exists (rev s'). apply (f_equal (@rev char)) in H.
    rewrite rev_involutive, rev_app_distr, rev_involutive in H. auto.
  - exists (rev s'). subst. apply rev_app_distr.
Qed.

(** [needle in hay] holds exactly when [needle] is a substring of [hay]. *)
Lemma contains_spec needle : forall hay,
  contains needle hay = true <-> exists a b, hay = a ++ needle ++ b.
Proof.
  induction hay as [|y hay IH]; cbn [contains].
  - rewrite orb_false_r, startswith_spec. split.
    + intros (s' & H). exists [], s'. auto.
    + intros (a & b & H). destruct a; simpl in H; eauto. discriminate.
  - rewrite orb_true_iff, IH, startswith_spec. split.
    + intros [(s' & H) | (a & b & H)].
      * exists [], s'. auto.
      * exists (y :: a), b. simpl. congruence.
    + intros (a & b & H). destruct a as [|x a]; simpl in H.
      * left. eauto.
      * right. inversion H; subst. eauto.
Qed.

Lemma lstrip_suffix s : exists k, lstrip s = skipn k s.
Proof.
  induction s as [|c s (k & IH)]; simpl.
  - exists 0. auto.
  - destruct (is_space c); [exists (S k) | exists 0]; auto.
Qed.

Lemma in_skipn {A : Type} (x : A) k l : In x (skipn k l) -> In x l.
Proof.
  rewrite <- (firstn_skipn k l) at 2. intros H. apply in_or_app. auto.
Qed.

Lemma in_py_strip x s : In x (py_strip s) -> In x s.
Proof.
  unfold py_strip, rstrip. intros H. apply in_rev in H.
  destruct (lstrip_suffix (rev (lstrip s))) as (k & E). rewrite E in H.
  apply in_skipn in H. apply in_rev in H.
  destruct (lstrip_suffix s) as (k' & E'). rewrite E' in H.
  eapply in_skipn; eauto.
Qed.

Lemma in_split_ws_join x : forall s cur,
  In x (py_join [32%N] (split_ws cur s)) -> x = 32%N \/ In x cur \/ In x s.
Proof.
  induction s as [|c s IH]; intros cur H; simpl in H.
  - destruct cur; simpl in H; auto.
  - destruct (is_space c).
    + destruct cur as [|d cur].
      * apply IH in H. simpl in *. tauto.
      * remember (split_ws [] s) as rest eqn:E.
        assert (H' : In x (d :: cur) \/ x = 32%N \/
                     In x (py_join [32%N] rest)).
        { destruct rest as [|p rest]; simpl in H |- *.
          - tauto.
          - destruct H as [H | H]; auto.
            apply in_app_or in H. destruct H as [H | H]; auto.
            simpl in H. destruct H as [H | H]; auto. }
        subst rest. destruct H' as [H' | [H' | H']]; auto.
        apply IH in H'. simpl in *. tauto.
    + apply IH in H. destruct H as [H | [H | H]]; auto.
      * apply in_app_or in H. simpl in *. tauto.
      * simpl. tauto.
Qed.

Ltac to_prop :=
  unfold is_space, is_ascii, ascii_upper, ascii_lower, ascii_digit, in_range in *;
  repeat rewrite ?andb_true_iff, ?orb_true_iff, ?andb_false_iff,
    ?orb_false_iff, ?negb_true_iff, ?negb_false_iff,
    ?N.leb_le, ?N.ltb_lt, ?N.eqb_eq, ?N.leb_gt, ?N.ltb_ge, ?N.eqb_neq in *.

Lemma contains_in needle hay x :
  contains needle hay = true -> In x needle -> In x hay.
Proof.
  intros H Hx. apply contains_spec in H. destruct H as (a & b & ->).
  apply in_or_app. right. apply in_or_app. auto.
Qed.

Lemma py_lower_ascii U s :
  Forall (fun c => is_ascii c = true) s -> py_lower U s = map ascii_to_lower s.
Proof.
  unfold py_lower. generalize (@nil char) as before.
  induction s as [|c s IH]; intros before H; simpl; auto.
  inversion H as [|? ? Hc Hs]; subst.
  unfold lower_char. rewrite Hc. simpl. f_equal. auto.
Qed.

Lemma py_lower_blank U s :
  Forall (fun c => is_space c = true) s -> py_lower U s = s.
Proof.
  unfold py_lower. generalize (@nil char) as before.
  induction s as [|c s IH]; intros before H; simpl; auto.
  inversion H as [|? ? Hc Hs]; subst.
  unfold lower_char. rewrite Hc, IH by auto.
  destruct (is_ascii c) eqn:Ha; auto.
  unfold ascii_to_lower. destruct (ascii_upper c) eqn:Hu; auto.
  exfalso. clear - Hc Hu. to_prop. lia.
Qed.

(** ** The transition classifier *)

Definition substring (w d : str) : Prop := exists a b, d = a ++ w ++ b.

(** C7. [determine_transition_type] decides by substring tests on the
    lower-cased description, in the order "merged into", "name changed",
    then "divided into" or "split into", else [other]; a missing (NaN or
    empty) or blank (whitespace only) value gives [other]; on ASCII text the
    lower-casing is the character-wise one; [classify("Merged into
    Tanzania")] is [merged] and [classify("Republic renamed")] is
    [other]. *)
Theorem determine_transition_type_priority (U : unicode_tables) (x : cell) :
  let d := py_lower U (py_str x) in
  let t := determine_transition_type U x in
  (t = merged <-> missing x = false /\ substring (py "merged into") d) /\
  (t = name_changed <->
     missing x = false /\ ~ substring (py "merged into") d /\
     substring (py "name changed") d) /\
  (t = divided <->
     missing x = false /\ ~ substring (py "merged into") d /\
     ~ substring (py "name changed") d /\
     (substring (py "divided into") d \/ substring (py "split into") d)) /\
  (t = other <->
     missing x = true \/
     (~ substring (py "merged into") d /\ ~ substring (py "name changed") d /\
      ~ substring (py "divided into") d /\ ~ substring (py "split into") d)) /\
  (Forall (fun c => is_ascii c = true) (py_str x) ->
     d = map ascii_to_lower (py_str x)) /\
  (Forall (fun c => is_space c = true) (py_str x) -> t = other) /\
  determine_transition_type U (Str (py "Merged into Tanzania")) = merged /\
  determine_transition_type U (Str (py "Republic renamed")) = other.
Proof.
  intros d t.
  assert (Hc : forall w, contains w d = true <-> substring w d)
    by (intros w; apply contains_spec).
  assert (Hn : forall w, contains w d = false <-> ~ substring w d).
  { intros w. rewrite <- Hc. destruct (contains w d); split; intros;
      congruence. }
  assert (Hascii : Forall (fun c => is_ascii c = true) (py_str x) ->
                   d = map ascii_to_lower (py_str x))
    by apply py_lower_ascii.
  subst t. unfold determine_transition_type. fold d.
  splits.
  - destruct (missing x); [split; [discriminate | intros []; discriminate]|].
    rewrite <- Hc.
    destruct (contains (py "merged into") d); [tauto|].
    destruct (contains (py "name changed") d);
      [split; [discriminate | intros []; discriminate]|].
    destruct (_ || _); split; try discriminate; intros []; discriminate.
  - destruct (missing x); [split; [discriminate | intros []; discriminate]|].
    rewrite <- !Hn, <- !Hc.
    destruct (contains (py "merged into") d);
      [split; [discriminate | intros (_ & ? & _); discriminate]|].
    destruct (contains (py "name changed") d); [tauto|].
    destruct (_ || _); split; try discriminate; intros (_ & _ & ?);
      discriminate.
  - destruct (missing x);
      [split; [discriminate | intros []; discriminate]|].
    rewrite <- !Hn, <- !Hc, <- orb_true_iff.
    destruct (contains (py "merged into") d);
      [split; [discriminate | intros (_ & ? & _); discriminate]|].
    destruct (contains (py "name changed") d);
      [split; [discriminate | intros (_ & _ & ? & _); discriminate]|].
    destruct (_ || _); [tauto|].
    split; [discriminate | intros (_ & _ & _ & ?); discriminate].
  - destruct (missing x); [tauto|].
    rewrite <- !Hn.
    destruct (contains (py "merged into") d);
      [split; [discriminate | intros [? | (? & _)]; discriminate]|].
    destruct (contains (py "name changed") d);
      [split; [discriminate | intros [? | (_ & ? & _)]; discriminate]|].
    destruct (contains (py "divided into") d); simpl;
      [split; [discriminate | intros [? | (_ & _ & ? & _)]; discriminate]|].
    destruct (contains (py "split into") d); simpl;
      [split; [discriminate | intros [? | (_ & _ & _ & ?)]; discriminate]|].
    tauto.
  - exact Hascii.
  - intros Hblank.
    assert (Hno : forall w, In 110%N w -> contains w d = false).
    { intros w Hw. destruct (contains w d) eqn:E; auto.
      pose proof (contains_in _ _ _ E Hw) as Hin.
      unfold d in Hin. rewrite (py_lower_blank U Hblank) in Hin.
      rewrite Forall_forall in Hblank. apply Hblank in Hin.
      vm_compute in Hin. discriminate. }
    destruct (missing x); auto.
    rewrite !Hno; simpl; auto 20.
  - vm_compute. reflexivity.
  - vm_compute. reflexivity.
Qed.

(** ** The loop over the rows *)

Section Loop.
Variable process : RawRow -> result country_record.

(** The records of the rows that [process] accepts, in order. *)
Definition successes (df : DataFrame) : list country_record :=
  flat_map (fun row => match process row with
                       | Ok record => [record]
                       | Raise _ => []
                       end) df.

(** The exceptions of the rows that [process] refuses, each with the index
    of its row, in order. *)
Definition failures_from (i : nat) (df : DataFrame) : list (nat * exn) :=
  flat_map (fun item : nat * RawRow =>
              match process (snd item) with
              | Ok _ => []
              | Raise e => [(fst item, e)]
              end) (enumerate_from i df).

Definition failures (df : DataFrame) : list (nat * exn) := failures_from 0 df.

Lemma scrape_fold : forall df i clean_records errors,
  fold_left (scrape_step process) (enumerate_from i df) (clean_records, errors)
  = (clean_records ++ successes df, errors ++ failures_from i df).
Proof.
  induction df as [|row df IH]; intros i clean_records errors; simpl.
  - rewrite !app_nil_r. reflexivity.
  - unfold failures_from. simpl. destruct (process row) as [record|e].
    + rewrite IH. rewrite <- app_assoc. reflexivity.
    + rewrite IH. rewrite <- app_assoc. reflexivity.
Qed.

Lemma scrape_loop_eq df :
  scrape_loop process df = (successes df, failures df).
Proof.
  unfold scrape_loop, iterrows, enumerate. rewrite scrape_fold. reflexivity.
Qed.

Lemma successes_failures_length : forall df i,
  List.length (successes df) + List.length (failures_from i df)
  = List.length df.
Proof.
  induction df as [|row df IH]; intros i; simpl; auto.
  unfold failures_from. simpl. specialize (IH (S i)).
  unfold failures_from in IH.
  destruct (process row); simpl; rewrite ?length_app; simpl; lia.
Qed.

Lemma failures_from_in : forall df i j row e,
  nth_error df j = Some row -> process row = Raise e ->
  In (i + j, e) (failures_from i df).
Proof.
  induction df as [|row0 df IH]; intros i j row e Hj He.
  - destruct j; discriminate.
  - unfold failures_from. simpl. apply in_or_app. destruct j as [|j].
    + simpl in Hj. inversion Hj; subst. rewrite He, Nat.add_0_r.
      left. simpl. auto.
    + right. replace (i + S j) with (S i + j) by lia.
      apply (IH (S i) j row e); auto.
Qed.

Lemma failures_from_inv : forall df i j e,
  In (j, e) (failures_from i df) ->
  exists row, i <= j /\ nth_error df (j - i) = Some row /\ process row = Raise e.
Proof.
  induction df as [|row0 df IH]; intros i j e H.
  - destruct H.
  - unfold failures_from in H. simpl in H. apply in_app_or in H.
    destruct H as [H | H].
    + destruct (process row0) eqn:E; simpl in H; [tauto|].
      destruct H as [H | []]. inversion H; subst.
      exists row0. rewrite Nat.sub_diag. auto.
    + apply IH in H. destruct H as (row & Hle & Hn & He).
      exists row. replace (j - i) with (S (j - S i)) by lia.
      simpl. splits; auto. lia.
Qed.

End Loop.

(** C8. Whatever the per-row method does, the loop of [scrape_and_clean]
    ends with a dataset: a row whose processing raises is noted with its
    index and left out, every other row is processed, and [countries] holds
    exactly the records of the rows that did not raise, in source order. *)
Theorem scrape_loop_tolerates_failures
    (process : RawRow -> result country_record) (now1 now2 : datetime)
    (df : DataFrame) :
  let out := scrape_and_clean_with process now1 now2 df in
  ds_countries (fst out) = successes process df /\
  snd out = failures process df /\
  List.length (ds_countries (fst out)) + List.length (snd out)
  = List.length df /\
  (forall j row e, nth_error df j = Some row -> process row = Raise e ->
                   In (j, e) (snd out)) /\
  (forall j e, In (j, e) (snd out) ->
               exists row, nth_error df j = Some row /\ process row = Raise e) /\
  (forall row record, In row df -> process row = Ok record ->
                      In record (ds_countries (fst out))).
Proof.
  unfold scrape_and_clean_with. rewrite scrape_loop_eq. simpl. splits; auto.
  - apply successes_failures_length.
  - intros j row e Hj He. apply (failures_from_in process df 0 j Hj He).
  - intros j e H. apply failures_from_inv in H.
    destruct H as (row & _ & Hn & He). rewrite Nat.sub_0_r in Hn. eauto.
  - intros row record Hin Hok. unfold successes. apply in_flat_map.
    exists row. rewrite Hok. simpl. auto.
Qed.

(** C9. The clock is the only other input of a run: two runs over the same
    rows, at whatever times, give the same [countries], the same
    [total_records] and the same errors, and the same metadata apart from
    [version] and [last_updated]. *)
Theorem scrape_and_clean_deterministic
    (process : RawRow -> result country_record)
    (now1 now2 now1' now2' : datetime) (df : DataFrame) :
  let out := scrape_and_clean_with process now1 now2 df in
  let out' := scrape_and_clean_with process now1' now2' df in
  ds_countries (fst out) = ds_countries (fst out') /\
  md_total_records (ds_metadata (fst out))
  = md_total_records (ds_metadata (fst out')) /\
  md_title (ds_metadata (fst out)) = md_title (ds_metadata (fst out')) /\
  md_description (ds_metadata (fst out))
  = md_description (ds_metadata (fst out')) /\
  md_source (ds_metadata (fst out)) = md_source (ds_metadata (fst out')) /\
  md_standard (ds_metadata (fst out)) = md_standard (ds_metadata (fst out')) /\
  snd out = snd out' /\
  fst out' =
    {| ds_metadata :=
         {| md_title := md_title (ds_metadata (fst out));
            md_description := md_description (ds_metadata (fst out));
            md_source := md_source (ds_metadata (fst out));
            md_standard := md_standard (ds_metadata (fst out));
            md_version := strftime_Ym now1';
            md_total_records := md_total_records (ds_metadata (fst out));
            md_last_updated := strftime_Ymd now2' |};
       ds_countries := ds_countries (fst out) |}.
Proof.
  unfold scrape_and_clean_with. rewrite scrape_loop_eq. simpl.
  splits; reflexivity.
Qed.

(** C10. In the dataset a run returns, [total_records] is the length of
    [countries], which is the number of rows less the rows that raised. *)
Theorem total_records_is_length
    (process : RawRow -> result country_record) (now1 now2 : datetime)
    (df : DataFrame) :
  let out := scrape_and_clean_with process now1 now2 df in
  md_total_records (ds_metadata (fst out))
  = List.length (ds_countries (fst out)) /\
  md_total_records (ds_metadata (fst out))
  = List.length df - List.length (snd out).
Proof.
  unfold scrape_and_clean_with. rewrite scrape_loop_eq. simpl.
  split; auto.
  pose proof (successes_failures_length process df 0). unfold failures. lia.
Qed.

(** ** Matching a whole token *)

Lemma re_match_some U r s :
  is_some (re_match U r s) = true <-> exists n g, accepts U r 0 s n [] g.
Proof.
  unfold re_match. destruct (match_here U r 0 s) as [[j g]|] eqn:H; simpl.
  - apply match_here_sound in H. destruct H as (n & _ & H). split; eauto.
  - split; [discriminate|]. intros (n & g & Hacc).
    exfalso. eapply match_here_complete; eauto.
Qed.

Lemma lstrip_head s c s' : lstrip s = c :: s' -> is_space c = false.
Proof.
  induction s as [|x s IH]; simpl; [discriminate|].
  destruct (is_space x) eqn:Hx; auto. intros H. inversion H; subst. auto.
Qed.

(** A stripped string does not end in whitespace. *)
Lemma py_strip_last s l c : py_strip s = l ++ [c] -> is_space c = false.
Proof.
  unfold py_strip, rstrip. intros H.
  apply (f_equal (@rev char)) in H.
  rewrite rev_involutive, rev_app_distr in H. simpl in H.
  eapply lstrip_head; eauto.
Qed.

(** An exact code: [k] characters of the class, nothing else. *)
Definition exactly (k : nat) (p : char -> bool) (t : str) : bool :=
  Nat.eqb (List.length t) k && forallb p t.

Lemma anchored_class_match U c k s :
  is_some (re_match U (rcat [RBol; RRep c k (Some k) true; REol])
             (py_strip s)) = exactly k (cs_in U c) (py_strip s).
Proof.
  set (t := py_strip s).
  assert (Hlast : forall l, t <> l ++ [10%N]).
  { intros l H. apply py_strip_last in H. discriminate. }
  clearbody t. apply eq_true_iff_eq. rewrite re_match_some.
  unfold exactly. rewrite andb_true_iff, Nat.eqb_eq, forallb_forall.
  simpl. split.
  - intros (n & g & n1 & n2 & g1 & -> & (_ & -> & ->) &
            n3 & n4 & g2 & -> & (Hlo & Hhi & Hlen & Hall & ->) &
            (-> & Hend & ->)).
    simpl in *. assert (n3 = k) by lia. subst n3.
    destruct Hend as [Hend | Hend].
    + assert (List.length (skipn k t) = 0) as L by (rewrite Hend; auto).
      rewrite length_skipn in L. assert (List.length t = k) by lia.
      split; auto. rewrite firstn_all2 in Hall by lia.
      rewrite Forall_forall in Hall. auto.
    + exfalso. apply (Hlast (firstn k t)).
      rewrite <- Hend. symmetry. apply firstn_skipn.
  - intros [Hlen Hall]. exists k, []. exists 0, k, []. splits; auto.
    exists k, 0, []. simpl. splits; auto; try lia.
    + rewrite firstn_all2 by lia. apply Forall_forall. auto.
    + left. apply skipn_all2. lia.
Qed.

(** ** The name cleaner: action phrases *)

Inductive subseq {A : Type} : list A -> list A -> Prop :=
| subseq_nil : subseq [] []
| subseq_skip x l1 l2 : subseq l1 l2 -> subseq l1 (x :: l2)
| subseq_take x l1 l2 : subseq l1 l2 -> subseq (x :: l1) (x :: l2).

Definition strip_step (name prefix : str) : str :=
  if startswith name prefix then skipn (List.length prefix) name else name.

(** The phrases the loop removes from [name], in order. *)
Fixpoint removed_phrases (ps : list str) (name : str) : list str :=
  match ps with
  | [] => []
  | p :: ps' =>
      if startswith name p
      then p :: removed_phrases ps' (skipn (List.length p) name)
      else removed_phrases ps' name
  end.

Lemma strip_fold : forall ps name,
  subseq (removed_phrases ps name) ps /\
  name = List.concat (removed_phrases ps name) ++ fold_left strip_step ps name.
Proof.
  induction ps as [|p ps IH]; intros name; simpl.
  - split; [constructor | reflexivity].
  - unfold strip_step at 2. destruct (startswith name p) eqn:Hp.
    + apply startswith_spec in Hp. destruct Hp as (s' & ->).
      rewrite skipn_app, skipn_all, Nat.sub_diag. simpl.
      destruct (IH s') as (Hsub & Heq).
      split; [apply subseq_take; auto|].
      rewrite <- app_assoc. f_equal. exact Heq.
    + destruct (IH name) as (Hsub & Heq).
      split; [apply subseq_skip; auto | exact Heq].
Qed.

Lemma removed_phrases_none : forall ps name,
  (forall p, In p ps -> startswith name p = false) ->
  removed_phrases ps name = [].
Proof.
  induction ps as [|p ps IH]; intros name H; simpl; auto.
  rewrite (H p) by (simpl; auto).
  apply IH. intros q Hq. apply H. simpl. auto.
Qed.

(** C5, as the code has it. The loop of [clean_country_name] tests each of
    the five action phrases once, in the order of the list, against the
    start of the name as the earlier removals left it. What it removes is
    therefore a prefix of the name made of some of the phrases in list
    order, each at most once: none when the name starts with no phrase,
    and possibly several. *)
Theorem clean_strips_listed_prefixes (U : unicode_tables) (name : cell) :
  missing name = false ->
  let name1 := re_sub U note_pattern [] (py_str name) in
  let removed := removed_phrases prefixes name1 in
  subseq removed prefixes /\
  name1 = List.concat removed ++ strip_prefixes name1 /\
  clean_country_name U name
  = py_strip (py_join [32%N] (py_split_ws (strip_prefixes name1))) /\
  ((forall p, In p prefixes -> startswith name1 p = false) -> removed = []).
Proof.
  intros Hm name1 removed.
  destruct (strip_fold prefixes name1) as (Hsub & Heq).
  splits; auto.
  - unfold clean_country_name. rewrite Hm. reflexivity.
  - apply removed_phrases_none.
Qed.

(** C5 as stated fails: one call removes two action phrases. *)
Lemma clean_removes_two_phrases :
  removed_phrases prefixes (py "Merged into Split into X")
  = [py "Merged into "; py "Split into "] /\
  clean_country_name ascii_tables (Str (py "Merged into Split into X"))
  = py "X".
Proof. split; vm_compute; reflexivity. Qed.

Lemma clean_strips_listed_prefixes_witness :
  let name := Str (py "Divided into:Divided into: Aruba") in
  let name1 := re_sub ascii_tables note_pattern [] (py_str name) in
  let removed := removed_phrases prefixes name1 in
  subseq removed prefixes /\
  name1 = List.concat removed ++ strip_prefixes name1 /\
  clean_country_name ascii_tables name
  = py_strip (py_join [32%N] (py_split_ws (strip_prefixes name1))) /\
  ((forall p, In p prefixes -> startswith name1 p = false) -> removed = []).
Proof.
  apply (@clean_strips_listed_prefixes ascii_tables
           (Str (py "Divided into:Divided into: Aruba"))).
  reflexivity.
Defined.

(** ** The former-codes parser *)

Section FormerCodes.
Variable U : unicode_tables.

Definition is_alpha2 (t : str) : bool := exactly 2 ascii_upper t.
Definition is_alpha3 (t : str) : bool := exactly 3 ascii_upper t.
Definition is_numeric3 (t : str) : bool := exactly 3 (is_decimal U) t.

(** The last token of the list that satisfies [p]. *)
Definition last_such (p : str -> bool) (tokens : list str) : option str :=
  find p (rev tokens).

(** The body of the loop of [parse_former_codes]. *)
Definition codes_step (result : former_codes) (part : str) : former_codes :=
  if is_some (re_match U alpha2_pattern part)
  then {| alpha2 := Some part; alpha3 := alpha3 result;
          numeric := numeric result |}
  else if is_some (re_match U alpha3_pattern part)
  then {| alpha2 := alpha2 result; alpha3 := Some part;
          numeric := numeric result |}
  else if is_some (re_match U numeric_pattern part)
  then {| alpha2 := alpha2 result; alpha3 := alpha3 result;
          numeric := Some part |}
  else result.

Lemma upper_not_decimal c : ascii_upper c = true -> is_decimal U c = false.
Proof.
  intros H. unfold is_decimal, todecimal.
  assert (is_ascii c = true /\ ascii_digit c = false) as [-> ->]; auto.
  to_prop. lia.
Qed.

Lemma codes_exclusive t :
  (is_alpha2 t = true -> is_alpha3 t = false /\ is_numeric3 t = false) /\
  (is_alpha3 t = true -> is_numeric3 t = false).
Proof.
  unfold is_alpha2, is_alpha3, is_numeric3, exactly. split.
  - rewrite andb_true_iff, Nat.eqb_eq. intros [-> _]. auto.
  - rewrite andb_true_iff, Nat.eqb_eq. intros [Hl Hall].
    destruct t as [|c t]; [discriminate|]. simpl in Hall.
    apply andb_true_iff in Hall. destruct Hall as [Hc _].
    simpl. rewrite (upper_not_decimal _ Hc). apply andb_false_r.
Qed.

Lemma codes_step_stripped result s :
  let part := py_strip s in
  alpha2 (codes_step result part)
  = (if is_alpha2 part then Some part else alpha2 result) /\
  alpha3 (codes_step result part)
  = (if is_alpha3 part then Some part else alpha3 result) /\
  numeric (codes_step result part)
  = (if is_numeric3 part then Some part else numeric result).
Proof.
  intros part. unfold codes_step, alpha2_pattern, alpha3_pattern,
    numeric_pattern. subst part.
  rewrite !anchored_class_match.
  change (exactly 2 (cs_in U upper) (py_strip s)) with (is_alpha2 (py_strip s)).
  change (exactly 3 (cs_in U upper) (py_strip s)) with (is_alpha3 (py_strip s)).
  change (exactly 3 (cs_in U CDigit) (py_strip s))
    with (is_numeric3 (py_strip s)).
  destruct (codes_exclusive (py_strip s)) as [H2 H3].
  destruct (is_alpha2 (py_strip s)).
  - destruct (H2 eq_refl) as [-> ->]. auto.
  - destruct (is_alpha3 (py_strip s)).
    + rewrite (H3 eq_refl). auto.
    + destruct (is_numeric3 (py_strip s)); auto.
Qed.

Lemma codes_fold : forall raw result,
  let tokens := map py_strip raw in
  let out := fold_left codes_step tokens result in
  alpha2 out = orelse (last_such is_alpha2 tokens) (alpha2 result) /\
  alpha3 out = orelse (last_such is_alpha3 tokens) (alpha3 result) /\
  numeric out = orelse (last_such is_numeric3 tokens) (numeric result).
Proof.
  induction raw as [|s raw IH] using rev_ind; intros result; simpl; auto.
  rewrite map_app. simpl. rewrite fold_left_app. simpl.
  unfold last_such. rewrite rev_app_distr. simpl.
  destruct (codes_step_stripped (fold_left codes_step (map py_strip raw) result) s)
    as (E2 & E3 & En).
  destruct (IH result) as (I2 & I3 & In_).
  rewrite E2, E3, En, I2, I3, In_. unfold last_such.
  destruct (is_alpha2 (py_strip s)), (is_alpha3 (py_strip s)),
    (is_numeric3 (py_strip s)); auto.
Qed.

End FormerCodes.

Lemma split_on_nonempty sep : forall s cur, split_on sep cur s <> [].
Proof.
  induction s as [|c s IH]; intros cur; simpl; [discriminate|].
  destruct (c =? sep)%N; [discriminate | apply IH].
Qed.

Lemma split_on_join sep : forall s cur,
  py_join [sep] (split_on sep cur s) = cur ++ s /\
  (~ In sep cur -> Forall (fun piece => ~ In sep piece) (split_on sep cur s)).
Proof.
  induction s as [|c s IH]; intros cur; simpl.
  - rewrite app_nil_r. auto.
  - destruct (N.eqb_spec c sep) as [->|Hne].
    + destruct (IH []) as [Hj Hf]. split.
      * assert (E : forall l, py_join [sep] (cur :: l)
                              = match l with
                                | [] => cur
                                | _ => cur ++ [sep] ++ py_join [sep] l
                                end) by (intros []; reflexivity).
        rewrite E. destruct (split_on sep [] s) eqn:Es.
        -- exfalso. eapply split_on_nonempty; eauto.
        -- rewrite Hj. reflexivity.
      * intros Hcur. constructor; auto.
    + destruct (IH (cur ++ [c])) as [Hj Hf]. split.
      * rewrite Hj, <- app_assoc. reflexivity.
      * intros Hcur. apply Hf. intros Hin. apply in_app_or in Hin.
        simpl in Hin. destruct Hin as [? | [? | []]]; auto.
Qed.

(** C3. [parse_former_codes] splits the stripped text on commas, trims each
    piece and gives each slot the last (rightmost) token of its shape:
    exactly two upper-case letters for alpha2, exactly three for alpha3,
    exactly three decimal digits for numeric; other tokens are ignored and a
    slot without a token stays absent. The pieces are what lies between the
    commas. ["US, USA, 840"] gives US, USA and 840; ["USA, US"] gives both
    codes whatever their order. *)
Theorem parse_former_codes_last_wins (U : unicode_tables) (codes_str : cell) :
  let pieces := py_split 44%N (py_strip (py_str codes_str)) in
  let tokens := map py_strip pieces in
  let result := parse_former_codes U codes_str in
  alpha2 result = last_such is_alpha2 tokens /\
  alpha3 result = last_such is_alpha3 tokens /\
  numeric result = last_such (is_numeric3 U) tokens /\
  py_join [44%N] pieces = py_strip (py_str codes_str) /\
  Forall (fun piece => ~ In 44%N piece) pieces /\
  parse_former_codes U (Str (py "US, USA, 840"))
  = {| alpha2 := Some (py "US"); alpha3 := Some (py "USA");
       numeric := Some (py "840") |} /\
  parse_former_codes U (Str (py "USA, US"))
  = {| alpha2 := Some (py "US"); alpha3 := Some (py "USA");
       numeric := None |} /\
  parse_former_codes U (Str (py "US, USA"))
  = parse_former_codes U (Str (py "USA, US")) /\
  alpha2 (parse_former_codes U (Str (py "US, GB"))) = Some (py "GB").
Proof.
  intros pieces tokens result.
  assert (Hsplit := split_on_join 44%N (py_strip (py_str codes_str)) []).
  destruct Hsplit as [Hjoin Hpieces].
  assert (Hslots :
    alpha2 result = last_such is_alpha2 tokens /\
    alpha3 result = last_such is_alpha3 tokens /\
    numeric result = last_such (is_numeric3 U) tokens).
  { subst result. unfold parse_former_codes.
    destruct (missing codes_str) eqn:Hm.
    - destruct codes_str as [|[|c s]]; try discriminate;
        vm_compute; auto.
    - fold pieces. fold tokens.
      destruct (codes_fold U pieces
                  {| alpha2 := None; alpha3 := None; numeric := None |})
        as (E2 & E3 & En).
      fold tokens in E2, E3, En. unfold codes_step in E2, E3, En.
      rewrite E2, E3, En. simpl.
      unfold orelse.
      destruct (last_such is_alpha2 tokens), (last_such is_alpha3 tokens),
        (last_such (is_numeric3 U) tokens); auto. }
  destruct Hslots as (H2 & H3 & Hn).
  splits; auto; vm_compute; reflexivity.
Qed.

(** ** The validity-period parser *)

Lemma firstn_app_exact {A : Type} n (a b : list A) :
  List.length a = n -> firstn n (a ++ b) = a.
Proof.
  intros <-. rewrite firstn_app, Nat.sub_diag, firstn_all. simpl.
  apply app_nil_r.
Qed.

Lemma skipn_app_exact {A : Type} n (a b : list A) :
  List.length a = n -> skipn n (a ++ b) = b.
Proof.
  intros <-. rewrite skipn_app, Nat.sub_diag, skipn_all. reflexivity.
Qed.

Section Period.
Variable U : unicode_tables.

Definition all_decimal (d : str) : Prop :=
  Forall (fun c => is_decimal U c = true) d.

(** [s] starts with a period: four digits [d1], an en dash or a hyphen,
    four digits [d2]. *)
Definition period_at (s d1 d2 : str) : Prop :=
  exists c rest,
    s = d1 ++ c :: d2 ++ rest /\
    List.length d1 = 4 /\ List.length d2 = 4 /\
    all_decimal d1 /\ all_decimal d2 /\ (c = 8211%N \/ c = 45%N).

(** The number a string of decimal digits denotes. *)
Definition decimal_value (d : str) : N :=
  fold_left (fun acc c => match todecimal U c with
                          | Some v => (10 * acc + v)%N
                          | None => acc
                          end) d 0%N.

Lemma digits_value_decimal : forall d acc,
  all_decimal d ->
  digits_value U acc d
  = Some (fold_left (fun acc c => match todecimal U c with
                                  | Some v => (10 * acc + v)%N
                                  | None => acc
                                  end) d acc).
Proof.
  induction d as [|c d IH]; intros acc H; simpl; auto.
  inversion H as [|? ? Hc Hd]; subst. unfold is_decimal in Hc.
  destruct (todecimal U c); [|discriminate]. apply IH. auto.
Qed.

Lemma py_int_decimal (d : str) :
  d <> [] -> all_decimal d -> py_int U (Some d) = Ok (decimal_value d).
Proof.
  intros Hne H. unfold py_int. destruct d; [congruence|].
  rewrite digits_value_decimal by auto. reflexivity.
Qed.

Lemma period_accepts i s n g g' :
  accepts U period_pattern i s n g g' <->
  (exists d1 d2, period_at s d1 d2) /\ n = 9 /\
  g' = set_span 2 (i + 5, i + 9) (set_span 1 (i, i + 4) g).
Proof.
  unfold period_pattern. cbn [rcat accepts]. split.
  - intros (n1 & n2 & g1 & -> & (g0 & (Hlo & Hhi & Hlen & Hd1 & ->) & ->) &
            n3 & n4 & g2 & -> & (x & s' & Hs & Hx & -> & ->) &
            g3 & (Hlo' & Hhi' & Hlen' & Hd2 & ->) & ->).
    simpl in Hhi, Hhi'. assert (n1 = 4) by lia. assert (n4 = 4) by lia.
    subst n1 n4. splits; auto.
    + exists (firstn 4 s), (firstn 4 s'), x, (skipn 4 s').
      rewrite Hs in Hlen', Hd2.
      change (skipn 1 (x :: s')) with s' in Hlen', Hd2.
      splits; auto.
      * rewrite firstn_skipn, <- Hs. symmetry. apply firstn_skipn.
      * rewrite length_firstn. lia.
      * rewrite length_firstn. lia.
      * simpl in Hx. apply orb_true_iff in Hx.
        destruct Hx as [Hx | Hx]; apply N.eqb_eq in Hx; auto.
    + replace (i + 4 + 1) with (i + 5) by lia.
      replace (i + 5 + 4) with (i + 9) by lia. reflexivity.
  - intros ((d1 & d2 & c & rest & -> & L1 & L2 & D1 & D2 & Hc) & -> & ->).
    exists 4, 5, (set_span 1 (i, i + 4) g). splits; auto.
    + exists g. splits; auto; try (cbn [below]; lia).
      * rewrite length_app. lia.
      * rewrite firstn_app_exact; auto.
    + rewrite skipn_app_exact by auto.
      exists 1, 4, (set_span 1 (i, i + 4) g). splits; auto.
      * exists c, (d2 ++ rest). splits; auto.
        destruct Hc as [-> | ->]; reflexivity.
      * exists (set_span 1 (i, i + 4) g).
        change (skipn 1 (c :: d2 ++ rest)) with (d2 ++ rest).
        splits; auto; try (cbn [below]; lia).
        -- rewrite length_app. lia.
        -- rewrite firstn_app_exact; auto.
        -- replace (i + 4 + 1) with (i + 5) by lia.
           replace (i + 5 + 4) with (i + 9) by lia. reflexivity.
Qed.

Lemma period_at_parts s d1 d2 :
  period_at s d1 d2 -> firstn 4 s = d1 /\ firstn 4 (skipn 5 s) = d2.
Proof.
  intros (c & rest & -> & L1 & L2 & _). split.
  - apply firstn_app_exact; auto.
  - change 5 with (1 + 4). rewrite <- skipn_skipn.
    rewrite skipn_app_exact by auto.
    change (skipn 1 (c :: d2 ++ rest)) with (d2 ++ rest).
    apply firstn_app_exact; auto.
Qed.

Lemma period_at_unique s d1 d2 e1 e2 :
  period_at s d1 d2 -> period_at s e1 e2 -> d1 = e1 /\ d2 = e2.
Proof.
  intros H H'. apply period_at_parts in H. apply period_at_parts in H'.
  destruct H, H'. split; congruence.
Qed.

(** What [re.search] returns for the period pattern. *)
Lemma period_search t :
  match re_search U period_pattern t with
  | Some m =>
      exists d1 d2,
        period_at (skipn (m_start m) t) d1 d2 /\
        group m 1 = Some d1 /\ group m 2 = Some d2 /\
        forall q e1 e2, q < m_start m -> ~ period_at (skipn q t) e1 e2
  | None => forall q e1 e2, ~ period_at (skipn q t) e1 e2
  end.
Proof.
  pose proof (re_search_spec U period_pattern t) as H.
  assert (Hocc : forall q e1 e2, period_at (skipn q t) e1 e2 ->
                 occurs U period_pattern t q 9
                   (set_span 2 (q + 5, q + 9) (set_span 1 (q, q + 4) []))).
  { intros q e1 e2 Hp. split.
    - destruct Hp as (c & rest & Hs & L1 & _).
      apply (f_equal (@List.length char)) in Hs.
      rewrite length_skipn, length_app in Hs. simpl in Hs. lia.
    - apply period_accepts. eauto. }
  destruct (re_search U period_pattern t) as [m|].
  - destruct H as (Hstr & [Hle Hacc] & _ & Hfirst).
    apply period_accepts in Hacc.
    destruct Hacc as ((d1 & d2 & Hp) & Hn & Hg).
    destruct (period_at_parts Hp) as [E1 E2].
    exists d1, d2. splits; auto.
    + unfold group. rewrite Hg, Hstr. cbn [get_span set_span Nat.eqb].
      unfold slice.
      replace (m_start m + 4 - m_start m) with 4 by lia.
      f_equal. exact E1.
    + unfold group. rewrite Hg, Hstr. cbn [get_span set_span Nat.eqb].
      unfold slice.
      replace (m_start m + 9 - (m_start m + 5)) with 4 by lia.
      f_equal. rewrite Nat.add_comm, <- skipn_skipn. exact E2.
    + intros q e1 e2 Hq Hp'. eapply Hfirst; eauto.
  - intros q e1 e2 Hp. eapply H; eauto.
Qed.

End Period.

(** C4. [parse_validity_period] never raises. It reads the first occurrence
    of four digits, an en dash or hyphen, four digits in the stripped text:
    [start] and [end] are the numbers the two groups denote, both present;
    without an occurrence, or for a missing cell, both are absent. Nothing
    compares [end] with [start]: ["1974-1965"] gives 1974 and 1965.
    ["1965–1974"] gives 1965 and 1974 and ["no date"] gives both absent. *)
Theorem parse_validity_period_first_occurrence
    (U : unicode_tables) (period_str : cell) :
  let t := py_strip (py_str period_str) in
  let absent := {| vp_start := None; vp_end := None |} in
  exists v,
    parse_validity_period U period_str = Ok v /\
    (vp_start v = None <-> vp_end v = None) /\
    (missing period_str = true -> v = absent) /\
    ((forall q d1 d2, ~ period_at U (skipn q t) d1 d2) -> v = absent) /\
    (missing period_str = false ->
     forall p d1 d2,
       period_at U (skipn p t) d1 d2 ->
       (forall q e1 e2, q < p -> ~ period_at U (skipn q t) e1 e2) ->
       v = {| vp_start := Some (decimal_value U d1);
              vp_end := Some (decimal_value U d2) |}) /\
    parse_validity_period U (Str (py "1965" ++ [8211%N] ++ py "1974"))
    = Ok {| vp_start := Some 1965%N; vp_end := Some 1974%N |} /\
    parse_validity_period U (Str (py "no date")) = Ok absent /\
    parse_validity_period U (Str (py "1974-1965"))
    = Ok {| vp_start := Some 1974%N; vp_end := Some 1965%N |} /\
    parse_validity_period U (Str (py "1990-1991, then 2000-2001"))
    = Ok {| vp_start := Some 1990%N; vp_end := Some 1991%N |}.
Proof.
  intros t absent. unfold parse_validity_period. fold t.
  assert (Hex : parse_validity_period U (Str (py "1965" ++ [8211%N] ++ py "1974"))
    = Ok {| vp_start := Some 1965%N; vp_end := Some 1974%N |} /\
    parse_validity_period U (Str (py "no date")) = Ok absent /\
    parse_validity_period U (Str (py "1974-1965"))
    = Ok {| vp_start := Some 1974%N; vp_end := Some 1965%N |} /\
    parse_validity_period U (Str (py "1990-1991, then 2000-2001"))
    = Ok {| vp_start := Some 1990%N; vp_end := Some 1991%N |})
    by (splits; vm_compute; reflexivity).
  destruct (missing period_str) eqn:Hm.
  - exists absent. splits; auto; try tauto. discriminate.
  - pose proof (period_search U t) as H.
    destruct (re_search U period_pattern t) as [m|].
    + destruct H as (d1 & d2 & Hp & G1 & G2 & Hfirst).
      assert (Hd : d1 <> [] /\ d2 <> [] /\ all_decimal U d1 /\ all_decimal U d2).
      { destruct Hp as (c & rest & _ & L1 & L2 & D1 & D2 & _).
        splits; auto; intros ->; discriminate. }
      destruct Hd as (N1 & N2 & D1 & D2).
      rewrite G1, G2, (py_int_decimal N1 D1), (py_int_decimal N2 D2).
      simpl. eexists. splits; [reflexivity|..]; auto.
      * simpl. split; discriminate.
      * discriminate.
      * intros Hnone. exfalso. eapply Hnone; eauto.
      * intros _ p e1 e2 Hp' Hfirst'.
        assert (p = m_start m).
        { destruct (Nat.lt_trichotomy p (m_start m)) as [Hlt | [? | Hlt]];
            auto; exfalso.
          - eapply Hfirst; eauto.
          - eapply Hfirst'; eauto. }
        subst p. destruct (period_at_unique Hp Hp') as [-> ->]. reflexivity.
    + exists absent. splits; auto; try tauto.
      intros _ p d1 d2 Hp _. exfalso. eapply H; eauto.
Qed.

(** ** Literals *)

Lemma accepts_rlit U (t : str) : forall i (s : str) n g g',
  accepts U (rlit t) i s n g g' <->
  (exists rest, s = t ++ rest) /\ n = List.length t /\ g' = g.
Proof.
  induction t as [|c t IH]; intros i s n g g'.
  - simpl. split.
    + intros [-> ->]. splits; eauto.
    + intros (_ & -> & ->). auto.
  - destruct t as [|c' t].
    + simpl. split.
      * intros (x & s' & -> & Hx & -> & ->). apply N.eqb_eq in Hx. subst.
        splits; eauto.
      * intros ((rest & ->) & -> & ->). exists c, rest.
        rewrite N.eqb_refl. auto.
    + change (rlit (c :: c' :: t))
        with (RSeq (RChar (CLit c)) (rlit (c' :: t))).
      cbn [accepts]. split.
      * intros (n1 & n2 & g1 & -> & (x & s' & -> & Hx & -> & ->) & H).
        apply IH in H. destruct H as ((rest & Hr) & -> & ->).
        change (skipn 1 (x :: s')) with s' in Hr. subst s'.
        cbn [cs_in] in Hx. apply N.eqb_eq in Hx. subst x.
        splits; auto. exists rest. reflexivity.
      * intros ((rest & ->) & -> & ->).
        exists 1, (List.length (c' :: t)), g. splits; auto.
        -- exists c, ((c' :: t) ++ rest). cbn [cs_in].
           rewrite N.eqb_refl. auto.
        -- apply IH. splits; auto. exists rest. reflexivity.
Qed.

(** ** The name cleaner: annotation markers *)

Section Markers.
Variable U : unicode_tables.

(** [s] starts with an annotation marker, [[note N]]. *)
Definition marker_at (s : str) : Prop :=
  exists ds rest,
    s = py "[note " ++ ds ++ 93%N :: rest /\ ds <> [] /\ all_decimal U ds.

(** [s] contains an annotation marker. *)
Definition has_marker (s : str) : Prop :=
  exists a b, s = a ++ b /\ marker_at b.

Lemma note_accepts i (s : str) n g g' :
  accepts U note_pattern i s n g g' <->
  exists ds rest,
    s = py "[note " ++ ds ++ 93%N :: rest /\ ds <> [] /\ all_decimal U ds /\
    n = 7 + List.length ds /\ g' = g.
Proof.
  unfold note_pattern. cbn [rcat accepts]. split.
  - intros (n1 & n2 & g1 & -> & Hlit &
            n3 & n4 & g2 & -> & (Hlo & _ & Hlen & Hd & ->) &
            (x & s' & Hs & Hx & -> & ->)).
    apply accepts_rlit in Hlit. destruct Hlit as ((rest & ->) & -> & ->).
    rewrite skipn_app_exact in * by reflexivity.
    cbn [cs_in] in Hx. apply N.eqb_eq in Hx. subst x.
    exists (firstn n3 rest), s'. splits; auto.
    + f_equal. rewrite <- (firstn_skipn n3 rest) at 1. f_equal. exact Hs.
    + intros E. apply (f_equal (@List.length char)) in E.
      rewrite length_firstn in E. simpl in E. lia.
    + rewrite length_firstn. simpl. lia.
  - intros (ds & rest & -> & Hne & Hd & -> & ->).
    exists 6, (List.length ds + 1), g. splits; auto.
    + simpl. lia.
    + apply accepts_rlit. splits; eauto.
    + rewrite skipn_app_exact by reflexivity.
      exists (List.length ds), 1, g. splits; auto.
      * destruct ds; [congruence | simpl; lia].
      * exact I.
      * rewrite length_app. lia.
      * rewrite firstn_app_exact; auto.
      * rewrite skipn_app_exact by reflexivity.
        exists 93%N, rest. splits; auto.
Qed.

Lemma note_never_empty : never_empty U note_pattern.
Proof.
  intros i s n g g' H. apply note_accepts in H.
  destruct H as (ds & rest & _ & _ & _ & -> & _). lia.
Qed.

End Markers.

Lemma in_slice (x : char) (s : str) a b :
  In x (slice s a b) -> exists p, a <= p < b /\ nth_error s p = Some x.
Proof.
  unfold slice. intros H. apply In_nth_error in H. destruct H as (j & H).
  rewrite nth_error_firstn in H. destruct (Nat.ltb_spec j (b - a)); [|discriminate].
  rewrite nth_error_skipn in H. exists (a + j). split; auto. lia.
Qed.

Lemma in_skipn_nth (x : char) (s : str) a :
  In x (skipn a s) -> exists p, a <= p /\ nth_error s p = Some x.
Proof.
  intros H. apply In_nth_error in H. destruct H as (j & H).
  rewrite nth_error_skipn in H. exists (a + j). split; auto. lia.
Qed.

(** A character that starts an occurrence wherever it stands is gone once
    the occurrences are deleted. *)
Lemma splice_clear U r (subject : str) (x : char) : forall ms pos,
  scanned U r subject pos ms ->
  (forall p, pos <= p -> nth_error subject p = Some x ->
             exists n g, occurs U r subject p n g) ->
  ~ In x (splice subject [] pos ms).
Proof.
  induction ms as [|m ms IH]; intros pos Hsc Hx Hin; simpl in *.
  - apply in_skipn_nth in Hin. destruct Hin as (p & Hp & Hn).
    destruct (Hx p Hp Hn) as (n & g & Hocc). eapply Hsc; eauto.
  - destruct Hsc as (_ & Hle & Hlt & _ & Hgap & Hrest).
    apply in_app_or in Hin. destruct Hin as [Hin | Hin].
    + apply in_slice in Hin. destruct Hin as (p & Hp & Hn).
      destruct (Hx p (proj1 Hp) Hn) as (n & g & Hocc). eapply Hgap; eauto.
    + eapply IH; eauto. intros p Hp Hn. apply Hx; auto. lia.
Qed.

Lemma strip_prefixes_suffix (name : str) :
  exists k, strip_prefixes name = skipn k name.
Proof.
  unfold strip_prefixes. generalize prefixes as ps. intros ps. revert name.
  induction ps as [|p ps IH]; intros name; simpl.
  - exists 0. reflexivity.
  - destruct (startswith name p).
    + destruct (IH (skipn (List.length p) name)) as (k & E).
      exists (k + List.length p). rewrite E. apply skipn_skipn.
    + apply IH.
Qed.

(** What the deletion achieves: when every opening bracket of the input
    starts a marker, the result contains no opening bracket, hence no
    marker. *)
Lemma clean_clears_marker_brackets (U : unicode_tables) (name : cell) :
  (forall p, nth_error (py_str name) p = Some 91%N ->
             marker_at U (skipn p (py_str name))) ->
  ~ In 91%N (clean_country_name U name) /\
  ~ has_marker U (clean_country_name U name).
Proof.
  intros Hopen.
  assert (Hsc := @finditer_scanned U note_pattern (py_str name)
                   (@note_never_empty U)).
  assert (Hno : ~ In 91%N (clean_country_name U name)).
  { unfold clean_country_name. destruct (missing name); [simpl; tauto|].
    intros Hin. apply in_py_strip in Hin. apply in_split_ws_join in Hin.
    destruct Hin as [Hin | [[] | Hin]]; [discriminate|].
    destruct (strip_prefixes_suffix (re_sub U note_pattern [] (py_str name)))
      as (k & E).
    rewrite E in Hin. apply in_skipn in Hin.
    revert Hin. apply splice_clear with (r := note_pattern) (U := U); auto.
    intros p _ Hp. apply Hopen in Hp.
    destruct Hp as (ds & rest & Hs & Hne & Hd).
    exists (7 + List.length ds), []. split.
    - apply (f_equal (@List.length char)) in Hs.
      rewrite length_skipn, length_app in Hs. simpl in Hs. lia.
    - apply note_accepts. exists ds, rest. auto. }
  splits; auto.
  intros (a & b & E & ds & rest & -> & _). apply Hno. rewrite E.
  apply in_or_app. right. simpl. auto.
Qed.

Lemma marker_note (U : unicode_tables) (a ds : str) :
  ds <> [] -> all_decimal U ds ->
  has_marker U (a ++ py "[note " ++ ds ++ py "]").
Proof.
  intros Hne Hd. exists a, (py "[note " ++ ds ++ py "]"). split; auto.
  exists ds, []. splits; auto.
Qed.

(** C6. The code returns annotation markers, though it sets out to remove
    them: the markers are deleted in one pass, before whitespace is
    collapsed. A tab or a no-break space after "note" hides the marker from
    the pattern and is a blank in the result, and deleting an inner marker
    leaves the outer one. *)
Theorem clean_country_name_returns_marker (U : unicode_tables) :
  let tab := Str (py "Burma[note" ++ [9%N] ++ py "1]") in
  let nbsp := Str (py "Burma[note" ++ [160%N] ++ py "1]") in
  let nested := Str (py "[note [note 1]2]") in
  clean_country_name U tab = py "Burma[note 1]" /\
  clean_country_name U nbsp = py "Burma[note 1]" /\
  clean_country_name U nested = py "[note 2]" /\
  has_marker U (clean_country_name U tab) /\
  has_marker U (clean_country_name U nbsp) /\
  has_marker U (clean_country_name U nested).
Proof.
  intros tab nbsp nested.
  assert (Et : clean_country_name U tab = py "Burma[note 1]")
    by (vm_compute; reflexivity).
  assert (Eb : clean_country_name U nbsp = py "Burma[note 1]")
    by (vm_compute; reflexivity).
  assert (En : clean_country_name U nested = py "[note 2]")
    by (vm_compute; reflexivity).
  assert (H1 : all_decimal U (py "1"))
    by (repeat (apply Forall_cons; [reflexivity|]); apply Forall_nil).
  assert (H2 : all_decimal U (py "2"))
    by (repeat (apply Forall_cons; [reflexivity|]); apply Forall_nil).
  rewrite Et, Eb, En. splits; auto.
  - apply (@marker_note U (py "Burma") (py "1")); [discriminate | exact H1].
  - apply (@marker_note U (py "Burma") (py "1")); [discriminate | exact H1].
  - apply (@marker_note U [] (py "2")); [discriminate | exact H2].
Qed.

Lemma clean_clears_marker_brackets_example :
  let name := Str (py "Burma[note 1]") in
  ~ In 91%N (clean_country_name ascii_tables name) /\
  ~ has_marker ascii_tables (clean_country_name ascii_tables name).
Proof.
  apply (@clean_clears_marker_brackets ascii_tables
           (Str (py "Burma[note 1]"))).
  intros p Hp.
  do 5 (destruct p as [|p]; [discriminate|]).
  destruct p as [|p].
  - exists (py "1"), []. splits; auto.
    + discriminate.
    + repeat constructor.
  - do 8 (destruct p as [|p]; [discriminate|]). destruct p; discriminate.
Defined.

(** ** The repair of incomplete names *)

Section Repair.
Variable U : unicode_tables.

Definition all_space (s : str) : Prop := Forall (fun x => is_space x = true) s.

(** A phrase ending in [suffix]: word characters and whitespace (at least
    one), an optional comma, optional whitespace, the suffix. *)
Definition phrase_of (suffix phrase : str) : Prop :=
  exists w c sp,
    phrase = w ++ c ++ sp ++ suffix /\
    w <> [] /\
    Forall (fun x => is_word U x || is_space x = true) w /\
    (c = [] \/ c = [44%N]) /\
    all_space sp.

(** [phrase] stands in [raw] from index [p] on. *)
Definition phrase_in (suffix raw : str) (p : nat) (phrase : str) : Prop :=
  phrase_of suffix phrase /\ exists rest, skipn p raw = phrase ++ rest.

Lemma firstn_nonempty (s : str) n : 1 <= n -> n <= List.length s -> firstn n s <> [].
Proof.
  intros H1 H2 E. apply (f_equal (@List.length char)) in E.
  rewrite length_firstn in E. simpl in E. lia.
Qed.

Lemma phrase_accepts suffix i (s : str) n g g' :
  accepts U (phrase_pattern suffix) i s n g g' <->
  exists phrase,
    phrase_of suffix phrase /\ (exists rest, s = phrase ++ rest) /\
    n = List.length phrase /\ g' = set_span 1 (i, i + n) g.
Proof.
  unfold phrase_pattern. cbn [rcat accepts]. split.
  - intros (g0 & (n1 & m1 & g1 & -> & (Hlo1 & _ & Hlen1 & Hw & ->) &
                  n2 & m2 & g2 & -> & (_ & Hhi2 & Hlen2 & Hc & ->) &
                  n3 & n4 & g3 & -> & (_ & _ & Hlen3 & Hsp & ->) & Hlit) & ->).
    apply accepts_rlit in Hlit. destruct Hlit as ((rest & Hrest) & -> & ->).
    set (s1 := skipn n1 s) in *. set (s2 := skipn n2 s1) in *.
    set (w := firstn n1 s) in *. set (c := firstn n2 s1) in *.
    set (sp := firstn n3 s2) in *.
    assert (Es : s = w ++ c ++ sp ++ suffix ++ rest).
    { rewrite <- Hrest. unfold w, c, sp, s2, s1.
      rewrite !firstn_skipn. reflexivity. }
    assert (Lw : List.length w = n1) by (unfold w; rewrite length_firstn; lia).
    assert (Lc : List.length c = n2) by (unfold c; rewrite length_firstn; lia).
    assert (Lsp : List.length sp = n3)
      by (unfold sp; rewrite length_firstn; lia).
    assert (Nw : w <> []) by (unfold w; apply firstn_nonempty; auto).
    clearbody w c sp.
    exists (w ++ c ++ sp ++ suffix). splits.
    + exists w, c, sp. splits; auto.
      cbn [below] in Hhi2.
      destruct c as [|x [|y c]]; simpl in Lc; auto; [|lia].
      right. inversion Hc as [|? ? Hx _]; subst.
      cbn [cs_in] in Hx. apply N.eqb_eq in Hx. rewrite Hx. reflexivity.
    + exists rest. rewrite Es at 1. rewrite <- !app_assoc. reflexivity.
    + rewrite !length_app. lia.
    + reflexivity.
  - intros (phrase & (w & c & sp & -> & Hne & Hw & Hc & Hsp) &
            (rest & ->) & -> & ->).
    exists g. split; [|reflexivity].
    exists (List.length w), (List.length (c ++ sp ++ suffix)), g.
    rewrite <- !app_assoc.
    splits; auto.
    + rewrite !length_app. lia.
    + destruct w; [congruence | simpl; lia].
    + exact I.
    + rewrite length_app. lia.
    + rewrite firstn_app_exact; auto.
    + rewrite skipn_app_exact by auto.
      exists (List.length c), (List.length (sp ++ suffix)), g. splits; auto.
      * rewrite !length_app. lia.
      * lia.
      * cbn [below]. destruct Hc as [-> | ->]; simpl; lia.
      * rewrite length_app. lia.
      * rewrite firstn_app_exact by auto.
        destruct Hc as [-> | ->]; repeat constructor.
      * rewrite skipn_app_exact by auto.
        exists (List.length sp), (List.length suffix), g. splits; auto.
        -- rewrite length_app. lia.
        -- lia.
        -- exact I.
        -- rewrite length_app. lia.
        -- rewrite firstn_app_exact; auto.
        -- rewrite skipn_app_exact by auto. apply accepts_rlit.
           splits; auto. exists rest. reflexivity.
Qed.

(** What [re.search] returns for a phrase pattern. *)
Lemma phrase_search suffix (raw : str) :
  match re_search U (phrase_pattern suffix) raw with
  | Some m =>
      exists phrase,
        phrase_in suffix raw (m_start m) phrase /\
        group m 1 = Some phrase /\
        forall q e, q < m_start m -> ~ phrase_in suffix raw q e
  | None => forall q e, ~ phrase_in suffix raw q e
  end.
Proof.
  pose proof (re_search_spec U (phrase_pattern suffix) raw) as H.
  assert (Hocc : forall q e, phrase_in suffix raw q e ->
                 exists n g, occurs U (phrase_pattern suffix) raw q n g).
  { intros q e [Hp (rest & Hs)]. exists (List.length e), (set_span 1 (q, q + List.length e) []).
    split.
    - destruct Hp as (w & c & sp & -> & Hne & _).
      apply (f_equal (@List.length char)) in Hs.
      rewrite length_skipn, !length_app in Hs.
      destruct w; [congruence|]. simpl in Hs. lia.
    - apply phrase_accepts. exists e. splits; eauto. }
  destruct (re_search U (phrase_pattern suffix) raw) as [m|].
  - destruct H as (Hstr & [Hle Hacc] & Hse & Hfirst).
    apply phrase_accepts in Hacc.
    destruct Hacc as (phrase & Hp & (rest & Hs) & Hn & Hg).
    exists phrase. splits.
    + split; eauto.
    + unfold group. rewrite Hg, Hstr. cbn [get_span set_span Nat.eqb].
      unfold slice.
      replace (m_start m + (m_end m - m_start m) - m_start m)
        with (List.length phrase) by lia.
      rewrite Hs. f_equal. apply firstn_app_exact. reflexivity.
    + intros q e Hq Hin. destruct (Hocc q e Hin) as (n & g & Ho).
      eapply Hfirst; eauto.
  - intros q e Hin. destruct (Hocc q e Hin) as (n & g & Ho).
    eapply H; eauto.
Qed.

End Repair.

Section RepairLoop.
Variable U : unicode_tables.

Definition incomplete_suffixes : list str :=
  [py "Republic of"; py "Democratic Republic of the"].

Lemma trailing_accepts_paren i (s : str) n g g' :
  accepts U trailing_codes_pattern i s n g g' -> 0 < n /\ In 40%N s.
Proof.
  unfold trailing_codes_pattern. cbn [rcat accepts].
  intros (n1 & m1 & g1 & -> & _ &
          n2 & m2 & g2 & -> & (x & s' & Hs & Hx & -> & ->) & _).
  split; [lia|]. cbn [cs_in] in Hx. apply N.eqb_eq in Hx. subst x.
  assert (Hin : In 40%N (skipn n1 s)) by (rewrite Hs; simpl; auto).
  eapply in_skipn; eauto.
Qed.

(** A phrase holds no parenthesis, so deleting code groups from it changes
    nothing. *)
Lemma phrase_keeps suffix (phrase : str) :
  phrase_of U suffix phrase -> ~ In 40%N suffix ->
  re_sub U trailing_codes_pattern [] phrase = phrase.
Proof.
  intros (w & c & sp & -> & _ & Hw & Hc & Hsp) Hsuf.
  set (phrase := w ++ c ++ sp ++ suffix).
  assert (Hno : ~ In 40%N phrase).
  { unfold phrase. intros Hin.
    apply in_app_or in Hin. destruct Hin as [Hin | Hin].
    - rewrite Forall_forall in Hw. apply Hw in Hin. vm_compute in Hin.
      discriminate.
    - apply in_app_or in Hin. destruct Hin as [Hin | Hin].
      + destruct Hc as [-> | ->]; simpl in Hin; [tauto|].
        destruct Hin as [? | []]. discriminate.
      + apply in_app_or in Hin. destruct Hin as [Hin | Hin]; auto.
        unfold all_space in Hsp. rewrite Forall_forall in Hsp.
        apply Hsp in Hin. vm_compute in Hin. discriminate. }
  assert (Hne : never_empty U trailing_codes_pattern).
  { intros i s n g g' H. apply trailing_accepts_paren in H. tauto. }
  pose proof (@finditer_scanned U trailing_codes_pattern phrase Hne) as Hsc.
  unfold re_sub.
  destruct (finditer U trailing_codes_pattern phrase) as [|m ms]; auto.
  exfalso. destruct Hsc as (_ & _ & _ & [_ Hacc] & _).
  apply trailing_accepts_paren in Hacc. destruct Hacc as [_ Hin].
  apply in_skipn in Hin. auto.
Qed.

Lemma str_eqb_endswith (a b : str) : str_eqb a b = true -> endswith a b = true.
Proof.
  intros H. apply str_eqb_eq in H. subst. apply endswith_spec.
  exists []. reflexivity.
Qed.

Lemma endswith_exclusive (name : str) :
  endswith name (py "Republic of") = true ->
  endswith name (py "Democratic Republic of the") = true -> False.
Proof.
  intros H1 H2. apply endswith_spec in H1, H2.
  destruct H1 as (a & ->). destruct H2 as (b & H).
  change (py "Republic of") with (py "Republic o" ++ [102%N]) in H.
  change (py "Democratic Republic of the")
    with (py "Democratic Republic of th" ++ [101%N]) in H.
  rewrite !app_assoc in H. apply app_inj_tail in H.
  destruct H as [_ H]. discriminate.
Qed.

Lemma or_endswith (name suffix : str) :
  str_eqb name suffix || endswith name suffix = endswith name suffix.
Proof.
  destruct (str_eqb name suffix) eqn:E; auto.
  apply str_eqb_endswith in E. rewrite E. reflexivity.
Qed.

(** The loop of [fix_incomplete_name] for a name that ends in one of the
    two suffixes comes down to the one search for that suffix. *)
Lemma fix_loop_suffix (name raw suffix : str) :
  In suffix incomplete_suffixes ->
  endswith name suffix = true ->
  fix_loop U patterns name raw
  = match re_search U (phrase_pattern suffix) raw with
    | Some m =>
        full_name <- re_sub_opt U trailing_codes_pattern [] (group m 1) ;;
        Ok (py_strip full_name)
    | None => Ok name
    end.
Proof.
  intros Hin Hend. unfold patterns. cbn [fix_loop]. rewrite !or_endswith.
  destruct Hin as [<- | [<- | []]].
  - rewrite Hend.
    destruct (re_search U (phrase_pattern (py "Republic of")) raw); auto.
    destruct (endswith name (py "Democratic Republic of the")) eqn:E; auto.
    exfalso. eapply endswith_exclusive; eauto.
  - rewrite Hend.
    destruct (endswith name (py "Republic of")) eqn:E; auto.
    exfalso. eapply endswith_exclusive; eauto.
Qed.

Lemma fix_loop_other (name raw : str) :
  (forall suffix, In suffix incomplete_suffixes -> endswith name suffix = false) ->
  fix_loop U patterns name raw = Ok name.
Proof.
  intros H. unfold patterns. cbn [fix_loop]. rewrite !or_endswith.
  rewrite !H by (simpl; auto). reflexivity.
Qed.

End RepairLoop.

(** C2, as the code has it. [fix_incomplete_name] returns the name as it
    is when it is longer than 25 characters or ends in neither "Republic of"
    nor "Democratic Republic of the". Otherwise it searches the description
    for a phrase of word characters and whitespace, an optional comma and
    the suffix: when there is none the name is returned as it is; when there
    is one, the result is the phrase at the first place where one starts,
    with code groups deleted (there is none to delete in a phrase) and with
    the whitespace around it trimmed. It never raises. *)
Theorem fix_incomplete_name_repairs (U : unicode_tables) (name raw : str) :
  (exists fixed, fix_incomplete_name U name raw = Ok fixed) /\
  (25 < List.length name -> fix_incomplete_name U name raw = Ok name) /\
  ((forall suffix, In suffix incomplete_suffixes ->
                   endswith name suffix = false) ->
   fix_incomplete_name U name raw = Ok name) /\
  (forall suffix,
     In suffix incomplete_suffixes ->
     List.length name <= 25 -> endswith name suffix = true ->
     ((forall q e, ~ phrase_in U suffix raw q e) ->
      fix_incomplete_name U name raw = Ok name) /\
     ((exists q e, phrase_in U suffix raw q e) ->
      exists p phrase,
        phrase_in U suffix raw p phrase /\
        (forall q e, q < p -> ~ phrase_in U suffix raw q e) /\
        re_sub U trailing_codes_pattern [] phrase = phrase /\
        fix_incomplete_name U name raw
        = Ok (py_strip (re_sub U trailing_codes_pattern [] phrase)))).
Proof.
  assert (Hlong : 25 < List.length name ->
                  fix_incomplete_name U name raw = Ok name).
  { intros H. unfold fix_incomplete_name. destruct name; auto.
    apply Nat.ltb_lt in H. rewrite H. reflexivity. }
  assert (Hother : (forall suffix, In suffix incomplete_suffixes ->
                                   endswith name suffix = false) ->
                   fix_incomplete_name U name raw = Ok name).
  { intros H. unfold fix_incomplete_name. destruct name; auto.
    destruct (_ <? _); auto. apply fix_loop_other. auto. }
  assert (Hsuf : forall suffix,
     In suffix incomplete_suffixes ->
     List.length name <= 25 -> endswith name suffix = true ->
     ((forall q e, ~ phrase_in U suffix raw q e) ->
      fix_incomplete_name U name raw = Ok name) /\
     ((exists q e, phrase_in U suffix raw q e) ->
      exists p phrase,
        phrase_in U suffix raw p phrase /\
        (forall q e, q < p -> ~ phrase_in U suffix raw q e) /\
        re_sub U trailing_codes_pattern [] phrase = phrase /\
        fix_incomplete_name U name raw
        = Ok (py_strip (re_sub U trailing_codes_pattern [] phrase)))).
  { intros suffix Hin Hlen Hend.
    assert (E : fix_incomplete_name U name raw
                = fix_loop U patterns name raw).
    { unfold fix_incomplete_name. destruct name as [|c name].
      - destruct Hin as [<- | [<- | []]]; discriminate.
      - apply Nat.ltb_ge in Hlen. rewrite Hlen. reflexivity. }
    rewrite E, (fix_loop_suffix U name raw Hin Hend).
    assert (Hparen : ~ In 40%N suffix).
    { destruct Hin as [<- | [<- | []]]; vm_compute; intuition discriminate. }
    pose proof (phrase_search U suffix raw) as H.
    destruct (re_search U (phrase_pattern suffix) raw) as [m|].
    - destruct H as (phrase & Hp & Hg & Hfirst). rewrite Hg. simpl.
      split.
      + intros Hnone. exfalso. eapply Hnone; eauto.
      + intros _. exists (m_start m), phrase. splits; auto.
        apply phrase_keeps with (suffix := suffix); auto. apply Hp.
    - split; auto. intros (q & e & Hqe). exfalso. eapply H; eauto. }
  splits; auto.
  destruct (Nat.ltb_spec 25 (List.length name)) as [Hl | Hl]; [eauto|].
  destruct (endswith name (py "Republic of")) eqn:E1.
  - destruct (Hsuf (py "Republic of")) as [Hn Hs]; simpl; auto.
    destruct (re_search U (phrase_pattern (py "Republic of")) raw) eqn:Es.
    + pose proof (phrase_search U (py "Republic of") raw) as H.
      rewrite Es in H. destruct H as (phrase & Hp & _).
      destruct Hs as (p & ph & _ & _ & _ & ->); eauto.
    + pose proof (phrase_search U (py "Republic of") raw) as H.
      rewrite Es in H. rewrite Hn; eauto.
  - destruct (endswith name (py "Democratic Republic of the")) eqn:E2.
    + destruct (Hsuf (py "Democratic Republic of the")) as [Hn Hs];
        simpl; auto.
      destruct (re_search U (phrase_pattern
                  (py "Democratic Republic of the")) raw) eqn:Es.
      * pose proof (phrase_search U (py "Democratic Republic of the") raw)
          as H.
        rewrite Es in H. destruct H as (phrase & Hp & _).
        destruct Hs as (p & ph & _ & _ & _ & ->); eauto.
      * pose proof (phrase_search U (py "Democratic Republic of the") raw)
          as H.
        rewrite Es in H. rewrite Hn; eauto.
    + rewrite Hother; eauto.
      intros suffix [<- | [<- | []]]; auto.
Qed.

(** C2 as stated fails: the phrase found starts with a blank and the name
    returned is the phrase without it. *)
Lemma fix_incomplete_name_trims_phrase :
  option_map (fun m => group m 1)
    (re_search ascii_tables (phrase_pattern (py "Republic of"))
       (py "- Korea, Republic of (KR, KOR, 410)"))
  = Some (Some (py " Korea, Republic of")) /\
  fix_incomplete_name ascii_tables (py "Republic of")
    (py "- Korea, Republic of (KR, KOR, 410)")
  = Ok (py "Korea, Republic of") /\
  py "Korea, Republic of" <> py " Korea, Republic of".
Proof. splits; try (vm_compute; reflexivity). discriminate. Qed.

(** ** Patterns that are a sequence of characters and repetitions *)

Section Items.
Variable U : unicode_tables.

Inductive atom :=
| ALit (c : char)
| ARep (c : cset) (lo : nat) (hi : option nat) (greedy : bool).

(** An atom, inside capture group [n] when the first component is
    [Some n]. *)
Definition item := (option nat * atom)%type.

Definition atom_regex (a : atom) : regex :=
  match a with
  | ALit c => RChar (CLit c)
  | ARep c lo hi greedy => RRep c lo hi greedy
  end.

Definition item_regex (it : item) : regex :=
  match fst it with
  | Some n => RGroup n (atom_regex (snd it))
  | None => atom_regex (snd it)
  end.

(** The text [t] is one the atom matches. *)
Definition atom_ok (a : atom) (t : str) : Prop :=
  match a with
  | ALit c => t = [c]
  | ARep c lo hi _ =>
      lo <= List.length t /\ below hi (List.length t) /\
      Forall (fun x => cs_in U c x = true) t
  end.

Definition item_ok (it : item) (t : str) : Prop := atom_ok (snd it) t.

(** The groups after the items matched the texts [ts] from index [i] on. *)
Fixpoint groups_of (i : nat) (its : list item) (ts : list str) (g : spans)
    : spans :=
  match its, ts with
  | it :: its', t :: ts' =>
      groups_of (i + List.length t) its' ts'
        match fst it with
        | Some n => set_span n (i, i + List.length t) g
        | None => g
        end
  | _, _ => g
  end.

Lemma accepts_atom a i (s : str) n g g' :
  accepts U (atom_regex a) i s n g g' <->
  exists t : str,
    atom_ok a t /\ (exists rest, s = t ++ rest) /\ n = List.length t /\ g' = g.
Proof.
  destruct a as [c | c lo hi greedy]; cbn [atom_regex accepts atom_ok].
  - split.
    + intros (x & s' & -> & Hx & -> & ->). cbn [cs_in] in Hx.
      apply N.eqb_eq in Hx. subst x. exists [c]. splits; auto.
      exists s'. reflexivity.
    + intros (t & -> & (rest & ->) & -> & ->). exists c, rest.
      cbn [cs_in]. rewrite N.eqb_refl. auto.
  - split.
    + intros (Hlo & Hhi & Hlen & Hall & ->). exists (firstn n s).
      rewrite length_firstn, Nat.min_l by lia. splits; auto.
      exists (skipn n s). symmetry. apply firstn_skipn.
    + intros (t & (Hlo & Hhi & Hall) & (rest & ->) & -> & ->).
      rewrite firstn_app_exact by auto. rewrite length_app. splits; auto.
      lia.
Qed.

Lemma accepts_item it i (s : str) n g g' :
  accepts U (item_regex it) i s n g g' <->
  exists t : str,
    item_ok it t /\ (exists rest, s = t ++ rest) /\ n = List.length t /\
    g' = groups_of i [it] [t] g.
Proof.
  destruct it as [[k|] a]; unfold item_regex, item_ok; cbn [fst snd groups_of].
  - cbn [accepts]. split.
    + intros (g1 & H & ->). apply accepts_atom in H.
      destruct H as (t & Hok & Hrest & -> & ->). exists t. auto.
    + intros (t & Hok & Hrest & -> & ->). exists g. split; auto.
      apply accepts_atom. exists t. auto.
  - apply accepts_atom.
Qed.

Lemma accepts_items : forall its i (s : str) n g g',
  accepts U (rcat (map item_regex its)) i s n g g' <->
  exists ts : list str,
    Forall2 item_ok its ts /\
    (exists rest, s = List.concat ts ++ rest) /\
    n = List.length (List.concat ts) /\ g' = groups_of i its ts g.
Proof.
  induction its as [|it its IH]; intros i s n g g'.
  - cbn [map rcat accepts]. split.
    + intros [-> ->]. exists []. splits; auto. exists s. reflexivity.
    + intros (ts & Hf & _ & -> & ->). inversion Hf; subst. auto.
  - destruct its as [|it' its].
    + cbn [map rcat]. rewrite accepts_item. split.
      * intros (t & Hok & (rest & ->) & -> & ->). exists [t].
        cbn [List.concat]. rewrite app_nil_r. splits; auto.
        exists rest. reflexivity.
      * intros (ts & Hf & (rest & ->) & -> & ->).
        inversion Hf as [|? t ? ts' Hok Hf']; subst.
        inversion Hf'; subst. cbn [List.concat]. rewrite app_nil_r.
        exists t. splits; auto. exists rest. reflexivity.
    + change (rcat (map item_regex (it :: it' :: its)))
        with (RSeq (item_regex it) (rcat (map item_regex (it' :: its)))).
      cbn [accepts]. split.
      * intros (n1 & n2 & g1 & -> & H1 & H2).
        apply accepts_item in H1.
        destruct H1 as (t & Hok & (rest & ->) & -> & ->).
        rewrite skipn_app_exact in H2 by auto.
        apply IH in H2. destruct H2 as (ts & Hf & (rest' & ->) & -> & ->).
        exists (t :: ts). cbn [List.concat groups_of]. splits; auto.
        -- exists rest'. rewrite app_assoc. reflexivity.
        -- rewrite length_app. reflexivity.
      * intros (ts & Hf & (rest & ->) & -> & ->).
        inversion Hf as [|? t ? ts' Hok Hf']; subst.
        cbn [List.concat groups_of].
        exists (List.length t), (List.length (List.concat ts')),
          (groups_of i [it] [t] g).
        splits.
        -- rewrite length_app. reflexivity.
        -- apply accepts_item. exists t. splits; auto.
           exists (List.concat ts' ++ rest). rewrite app_assoc. reflexivity.
        -- rewrite <- app_assoc, skipn_app_exact by auto.
           apply IH. exists ts'. splits; auto. exists rest. reflexivity.
Qed.

End Items.

Lemma fix_incomplete_name_total U (name raw : str) :
  exists fixed, fix_incomplete_name U name raw = Ok fixed.
Proof.
  unfold fix_incomplete_name. destruct name as [|c name]; eauto.
  destruct (_ <? _); eauto.
  unfold patterns. cbn [fix_loop].
  pose proof (phrase_search U (py "Republic of") raw) as H1.
  pose proof (phrase_search U (py "Democratic Republic of the") raw) as H2.
  destruct (_ || _).
  - destruct (re_search U (phrase_pattern (py "Republic of")) raw).
    + destruct H1 as (phrase & _ & -> & _). simpl. eauto.
    + destruct (_ || _); eauto.
      destruct (re_search U (phrase_pattern
                  (py "Democratic Republic of the")) raw); eauto.
      destruct H2 as (phrase & _ & -> & _). simpl. eauto.
  - destruct (_ || _); eauto.
    destruct (re_search U (phrase_pattern
                (py "Democratic Republic of the")) raw); eauto.
    destruct H2 as (phrase & _ & -> & _). simpl. eauto.
Qed.

(** ** The successor parser *)

Section Successors.
Variable U : unicode_tables.

Definition code_items : list item :=
  [(None, ALit 40); (Some 1, ARep upper 2 (Some 2) true);
   (None, ALit 44); (None, ARep CSpace 0 None true);
   (Some 2, ARep upper 2 (Some 3) true);
   (None, ALit 44); (None, ARep CSpace 0 None true);
   (Some 3, ARep CDigit 3 (Some 4) true); (None, ALit 41)].

Lemma code_pattern_items : code_pattern = rcat (map item_regex code_items).
Proof. reflexivity. Qed.

Definition all_upper (t : str) : Prop :=
  Forall (fun x => ascii_upper x = true) t.

(** [text] is a code triplet: an opening parenthesis, two upper-case
    letters [a2], a comma, two or three upper-case letters [a3], a comma,
    three or four decimal digits [num], a closing parenthesis, with optional
    whitespace after each comma. *)
Definition code_triplet (text a2 a3 num : str) : Prop :=
  exists w1 w2 : str,
    text = [40%N] ++ a2 ++ [44%N] ++ w1 ++ a3 ++ [44%N] ++ w2 ++ num ++ [41%N] /\
    List.length a2 = 2 /\ all_upper a2 /\ all_space w1 /\
    2 <= List.length a3 <= 3 /\ all_upper a3 /\ all_space w2 /\
    3 <= List.length num <= 4 /\ all_decimal U num.

(** An occurrence of a code triplet in [s] from index [p] on. *)
Definition triplet_in (s : str) (p : nat) (text a2 a3 num : str) : Prop :=
  code_triplet text a2 a3 num /\ exists rest, skipn p s = text ++ rest.

Lemma code_accepts i (s : str) n g g' :
  accepts U code_pattern i s n g g' <->
  exists (w1 a2 a3 w2 num : str),
    let ts := [[40%N]; a2; [44%N]; w1; a3; [44%N]; w2; num; [41%N]] in
    (exists rest, s = List.concat ts ++ rest) /\
    List.length a2 = 2 /\ all_upper a2 /\ all_space w1 /\
    2 <= List.length a3 <= 3 /\ all_upper a3 /\ all_space w2 /\
    3 <= List.length num <= 4 /\ all_decimal U num /\
    n = List.length (List.concat ts) /\ g' = groups_of i code_items ts g.
Proof.
  rewrite code_pattern_items, accepts_items. split.
  - intros (ts & Hf & Hrest & -> & ->). unfold code_items in Hf.
    repeat match goal with
           | H : Forall2 _ (_ :: _) _ |- _ => inversion H; clear H; subst
           | H : Forall2 _ [] _ |- _ => inversion H; clear H; subst
           end.
    unfold item_ok in *. cbn [snd atom_ok below] in *.
    repeat match goal with
           | H : _ /\ _ |- _ => destruct H
           end.
    subst. do 5 eexists. cbn zeta. splits; eauto; try lia.
  - intros (w1 & a2 & a3 & w2 & num & Hrest & L2 & H2 & Hw1 & L3 & H3 &
            Hw2 & Ln & Hnum & -> & ->).
    eexists. splits; eauto.
    unfold code_items, item_ok.
    repeat (apply Forall2_cons || apply Forall2_nil);
      cbn [snd atom_ok below]; splits; auto; lia.
Qed.

Lemma code_never_empty : never_empty U code_pattern.
Proof.
  intros i s n g g' H. apply code_accepts in H.
  destruct H as (w1 & a2 & a3 & w2 & num & _ & _ & _ & _ & _ & _ & _ & _ &
                 _ & -> & _).
  cbn [List.concat]. rewrite !length_app. simpl. lia.
Qed.

End Successors.

Lemma slice_at (s : str) p (pre t post : str) a b :
  skipn p s = pre ++ t ++ post ->
  a = p + List.length pre -> b = a + List.length t ->
  slice s a b = t.
Proof.
  intros Hs -> ->. unfold slice.
  replace (p + List.length pre + List.length t - (p + List.length pre))
    with (List.length t) by lia.
  rewrite (Nat.add_comm p), <- skipn_skipn, Hs.
  rewrite skipn_app_exact by auto. apply firstn_app_exact. reflexivity.
Qed.

Lemma scanned_forall U r (subject : str) : forall ms pos,
  scanned U r subject pos ms ->
  Forall (fun m => m_string m = subject /\ m_start m < m_end m /\
                   occurs U r subject (m_start m) (m_end m - m_start m)
                     (m_spans m)) ms.
Proof.
  induction ms as [|m ms IH]; intros pos H; constructor.
  - destruct H as (? & ? & ? & ? & _). auto.
  - destruct H as (_ & _ & _ & _ & _ & H). eauto.
Qed.

Section SuccessorsSpec.
Variable U : unicode_tables.

(** The name between two occurrences, following the specification: the text
    from the end of the previous occurrence to the start of this one,
    trimmed, without a leading "Divided into:" or "Split into:" and without
    annotation markers, then cleaned. *)
Definition name_between (s : str) (prev_end start : nat) : str :=
  clean_country_name U
    (Str (py_strip
            (re_sub U note_pattern []
               (re_sub U keyword_pattern []
                  (py_strip (slice s prev_end start)))))).

(** The name after the repair of incomplete names. *)
Definition repaired (name raw : str) : str :=
  match fix_incomplete_name U name raw with
  | Ok fixed => fixed
  | Raise _ => name
  end.

(** The successor an occurrence gives, if any: none when the name between
    has fewer than three characters. *)
Definition successor_of (s raw : str) (prev_end : nat) (m : mobj)
    : list successor :=
  let name := name_between s prev_end (m_start m) in
  if List.length name <? 3 then []
  else [{| s_name := repaired name raw;
           s_alpha2 := group m 1;
           s_alpha3 := group m 2;
           s_numeric := group m 3 |}].

(** The successors of the occurrences [occs], the previous occurrence
    having ended at [prev_end]. *)
Fixpoint successors_between (s raw : str) (prev_end : nat) (occs : list mobj)
    : list successor :=
  match occs with
  | [] => []
  | m :: rest =>
      successor_of s raw prev_end m ++ successors_between s raw (m_end m) rest
  end.

(** Where the last of the matches [pre] ended. *)
Definition prev_end_of (pre : list mobj) : nat :=
  match rev pre with
  | [] => 0
  | m :: _ => m_end m
  end.

Lemma successor_step_eq (s raw : str) code_matches pre m rest successors :
  code_matches = pre ++ m :: rest ->
  successor_step U s raw code_matches successors (List.length pre, m)
  = Ok (successors ++ successor_of s raw (prev_end_of pre) m).
Proof.
  intros Hcm. unfold successor_step.
  assert (Hstart :
    (if 0 <? List.length pre
     then m0 <- index code_matches (List.length pre - 1) ;; Ok (m_end m0)
     else Ok 0) = Ok (prev_end_of pre)).
  { destruct pre as [|m' pre'] using rev_ind.
    - reflexivity.
    - unfold prev_end_of. rewrite rev_app_distr, length_app. simpl.
      replace (0 <? List.length pre' + 1) with true
        by (symmetry; apply Nat.ltb_lt; lia).
      unfold index. rewrite Hcm, <- app_assoc.
      rewrite nth_error_app2 by lia.
      replace (List.length pre' + 1 - 1 - List.length pre') with 0 by lia.
      reflexivity. }
  rewrite Hstart. cbn [bind]. unfold successor_of. fold (name_between s (prev_end_of pre) (m_start m)).
  generalize (name_between s (prev_end_of pre) (m_start m)) as name.
  intros [|c nm].
  - simpl. rewrite app_nil_r. reflexivity.
  - destruct (List.length (c :: nm) <? 3).
    + rewrite app_nil_r. reflexivity.
    + unfold repaired.
      destruct (fix_incomplete_name_total U (c :: nm) raw) as (fixed & ->).
      reflexivity.
Qed.

Lemma successor_loop (s raw : str) code_matches : forall rest pre acc,
  code_matches = pre ++ rest ->
  for_each (successor_step U s raw code_matches)
    (enumerate_from (List.length pre) rest) acc
  = Ok (acc ++ successors_between s raw (prev_end_of pre) rest).
Proof.
  induction rest as [|m rest IH]; intros pre acc Hcm;
    cbn [for_each enumerate_from successors_between].
  - rewrite app_nil_r. reflexivity.
  - rewrite (@successor_step_eq s raw code_matches pre m rest acc Hcm).
    cbn [bind].
    specialize (IH (pre ++ [m])). rewrite length_app, Nat.add_1_r in IH.
    rewrite IH by (rewrite <- app_assoc; exact Hcm).
    unfold prev_end_of at 2. rewrite rev_app_distr. simpl.
    rewrite <- app_assoc. reflexivity.
Qed.

(** [parse_successors] never raises and computes the successors between
    the occurrences. *)
Lemma parse_successors_eq (s raw : str) :
  parse_successors U (Str s) raw
  = Ok (successors_between s raw 0 (finditer U code_pattern s)).
Proof.
  unfold parse_successors. destruct s as [|c s]; [reflexivity|].
  cbn [missing py_str].
  destruct (finditer U code_pattern (c :: s)) as [|m ms] eqn:E;
    [reflexivity|].
  unfold enumerate.
  apply (@successor_loop (c :: s) raw (m :: ms) (m :: ms) [] []).
  reflexivity.
Qed.

(** A match of the code pattern is a code triplet and its groups are the
    three codes. *)
Lemma code_match_shape (s : str) m :
  m_string m = s ->
  occurs U code_pattern s (m_start m) (m_end m - m_start m) (m_spans m) ->
  exists text a2 a3 num,
    triplet_in U s (m_start m) text a2 a3 num /\
    m_end m - m_start m = List.length text /\
    group m 1 = Some a2 /\ group m 2 = Some a3 /\ group m 3 = Some num.
Proof.
  intros Hstr [Hle Hacc]. apply code_accepts in Hacc.
  destruct Hacc as (w1 & a2 & a3 & w2 & num & (rest & Hs) & L2 & H2 & Hw1 &
                    L3 & H3 & Hw2 & Ln & Hnum & Hn & Hg).
  cbn [List.concat] in Hs, Hn. rewrite app_nil_r in Hs, Hn.
  exists ([40%N] ++ a2 ++ [44%N] ++ w1 ++ a3 ++ [44%N] ++ w2 ++ num ++ [41%N]),
    a2, a3, num.
  splits; auto.
  - split.
    + exists w1, w2. splits; auto; lia.
    + exists rest. exact Hs.
  - unfold group. rewrite Hg, Hstr.
    cbn [groups_of code_items fst get_span set_span Nat.eqb]. f_equal.
    eapply slice_at with (pre := [40%N]); [|reflexivity|reflexivity].
    rewrite Hs. rewrite <- !app_assoc. reflexivity.
  - unfold group. rewrite Hg, Hstr.
    cbn [groups_of code_items fst get_span set_span Nat.eqb]. f_equal.
    eapply slice_at with (pre := [40%N] ++ a2 ++ [44%N] ++ w1).
    + rewrite Hs. rewrite <- !app_assoc. reflexivity.
    + rewrite !length_app. simpl. unfold str, char in *. lia.
    + reflexivity.
  - unfold group. rewrite Hg, Hstr.
    cbn [groups_of code_items fst get_span set_span Nat.eqb]. f_equal.
    eapply slice_at
      with (pre := [40%N] ++ a2 ++ [44%N] ++ w1 ++ a3 ++ [44%N] ++ w2).
    + rewrite Hs. rewrite <- !app_assoc. reflexivity.
    + rewrite !length_app. simpl. unfold str, char in *. lia.
    + reflexivity.
Qed.

Lemma triplet_occurs (s : str) p text a2 a3 num :
  triplet_in U s p text a2 a3 num ->
  exists n g, occurs U code_pattern s p n g.
Proof.
  intros [(w1 & w2 & -> & L2 & H2 & Hw1 & L3 & H3 & Hw2 & Ln & Hnum)
          (rest & Hs)].
  do 2 eexists. split.
  - apply (f_equal (@List.length char)) in Hs.
    rewrite length_skipn, !length_app in Hs. simpl in Hs. lia.
  - apply code_accepts. exists w1, a2, a3, w2, num. cbn zeta.
    split; [exists rest; rewrite Hs; cbn [List.concat];
            rewrite app_nil_r; reflexivity|].
    splits; try reflexivity; auto; lia.
Qed.

End SuccessorsSpec.

(** C1, as the code has it. [parse_successors] never raises. The matches
    it works from are the occurrences of the code triplet from left to
    right, none overlapping another, and the groups of each are its three
    codes. In that order it gives one successor for each occurrence whose
    name - the text between the end of the previous occurrence (the start
    of the string for the first) and the start of this one, trimmed, without
    leading keyword and markers, cleaned - has at least three characters,
    and none for an occurrence whose name is shorter. A string without
    occurrence, or a missing one, gives no successor;
    ["Sint Maarten (Dutch part) (SX, SXM, 534)"] gives the one successor
    Sint Maarten (Dutch part), SX, SXM, 534. *)
Theorem parse_successors_between_occurrences
    (U : unicode_tables) (s raw : str) :
  let occs := finditer U code_pattern s in
  scanned U code_pattern s 0 occs /\
  Forall (fun m =>
            exists text a2 a3 num,
              triplet_in U s (m_start m) text a2 a3 num /\
              m_end m = m_start m + List.length text /\
              group m 1 = Some a2 /\ group m 2 = Some a3 /\
              group m 3 = Some num) occs /\
  parse_successors U (Str s) raw = Ok (successors_between U s raw 0 occs) /\
  ((forall p text a2 a3 num, ~ triplet_in U s p text a2 a3 num) ->
   parse_successors U (Str s) raw = Ok []) /\
  parse_successors U NaN raw = Ok [] /\
  parse_successors U (Str (py "Sint Maarten (Dutch part) (SX, SXM, 534)"))
    (py "Sint Maarten (Dutch part) (SX, SXM, 534)")
  = Ok [{| s_name := py "Sint Maarten (Dutch part)";
           s_alpha2 := Some (py "SX");
           s_alpha3 := Some (py "SXM");
           s_numeric := Some (py "534") |}].
Proof.
  intros occs.
  assert (Hsc : scanned U code_pattern s 0 occs)
    by (apply finditer_scanned; apply code_never_empty).
  assert (Hshape := scanned_forall _ _ _ _ _ Hsc).
  assert (Hex :
    parse_successors U (Str (py "Sint Maarten (Dutch part) (SX, SXM, 534)"))
      (py "Sint Maarten (Dutch part) (SX, SXM, 534)")
    = Ok [{| s_name := py "Sint Maarten (Dutch part)";
             s_alpha2 := Some (py "SX");
             s_alpha3 := Some (py "SXM");
             s_numeric := Some (py "534") |}])
    by (vm_compute; reflexivity).
  split; [exact Hsc|]. split; [|split; [|split; [|split; [reflexivity|exact Hex]]]].
  - eapply Forall_impl; [|exact Hshape]. intros m (Hstr & Hlt & Hocc).
    destruct (@code_match_shape U s m Hstr Hocc)
      as (text & a2 & a3 & num & Ht & Hn & G1 & G2 & G3).
    exists text, a2, a3, num. splits; auto. lia.
  - apply parse_successors_eq.
  - intros Hnone. rewrite parse_successors_eq. fold occs.
    destruct occs as [|m ms]; [reflexivity|]. exfalso.
    apply Forall_inv in Hshape. destruct Hshape as (Hstr & Hlt & Hocc).
    destruct (@code_match_shape U s m Hstr Hocc)
      as (text & a2 & a3 & num & Ht & _).
    eapply Hnone; eauto.
Qed.

(** C1 as stated fails: an occurrence whose name has fewer than three
    characters gives no successor. *)
Lemma parse_successors_drops_short_name :
  List.length (finditer ascii_tables code_pattern (py "UK (GB, GBR, 826)")) = 1
  /\ parse_successors ascii_tables (Str (py "UK (GB, GBR, 826)"))
       (py "UK (GB, GBR, 826)") = Ok [].
Proof. split; vm_compute; reflexivity. Qed.

(** ** No pattern of a scan matches the empty string *)

Lemma accepts_rlit_i_length U (t : str) : forall i (s : str) n g g',
  accepts U (rlit_i t) i s n g g' -> n = List.length t.
Proof.
  induction t as [|c t IH]; intros i s n g g' H.
  - destruct H. auto.
  - destruct t as [|c' t].
    + destruct H as (x & s' & _ & _ & -> & _). reflexivity.
    + change (rlit_i (c :: c' :: t))
        with (RSeq (RChar (if ascii_upper c then CLitI (c + 32)
                           else if ascii_lower c then CLitI c else CLit c))
                (rlit_i (c' :: t))) in H.
      cbn [accepts] in H.
      destruct H as (n1 & n2 & g1 & -> & (x & s' & _ & _ & -> & _) & H).
      apply IH in H. subst n2. reflexivity.
Qed.

Lemma keyword_never_empty U : never_empty U keyword_pattern.
Proof.
  intros i s n g g' H. unfold keyword_pattern in H.
  cbn [rcat accepts] in H.
  destruct H as (n1 & n2 & g1 & -> & _ & n3 & n4 & g2 & -> & [H | H] & _);
    apply accepts_rlit_i_length in H; subst n3; simpl; lia.
Qed.

Lemma trailing_never_empty U : never_empty U trailing_codes_pattern.
Proof.
  intros i s n g g' H. apply trailing_accepts_paren in H. tauto.
Qed.

(** ** Assembling a record never raises *)

Lemma parse_validity_period_total U (period_str : cell) :
  exists v, parse_validity_period U period_str = Ok v.
Proof.
  unfold parse_validity_period. destruct (missing period_str); eauto.
  pose proof (period_search U (py_strip (py_str period_str))) as H.
  destruct (re_search U period_pattern _) as [m|]; eauto.
  destruct H as (d1 & d2 & (c & rest & _ & L1 & L2 & D1 & D2 & _) & -> & -> & _).
  rewrite !py_int_decimal by (auto; intros ->; discriminate).
  simpl. eauto.
Qed.

Lemma process_record_total U (row : RawRow) :
  exists record, process_record U row = Ok record.
Proof.
  unfold process_record.
  destruct (parse_validity_period_total U
              (row_get row "Period of validity" (Str []))) as (v & ->).
  cbn [bind]. rewrite parse_successors_eq. cbn [bind]. eauto.
Qed.

(** With [process_record] as the method, no row is left out. *)
Lemma scrape_and_clean_keeps_every_row U (now1 now2 : datetime)
    (df : DataFrame) :
  snd (scrape_and_clean U now1 now2 df) = [] /\
  List.length (ds_countries (fst (scrape_and_clean U now1 now2 df)))
  = List.length df.
Proof.
  unfold scrape_and_clean, scrape_and_clean_with. rewrite scrape_loop_eq.
  simpl. unfold failures.
  assert (H : forall i, failures_from (process_record U) i df = []).
  { induction df as [|row df IH]; intros i; auto.
    unfold failures_from. simpl.
    destruct (process_record_total U row) as (record & ->). simpl.
    apply IH. }
  split; [apply H|].
  pose proof (successes_failures_length (process_record U) df 0) as L.
  rewrite H in L. simpl in L. lia.
Qed.

(** ** The theorems at concrete inputs *)

Lemma parse_successors_between_occurrences_witness :
  parse_successors ascii_tables (Str (py "Merged into Tanzania"))
    (py "Merged into Tanzania") = Ok [].
Proof.
  destruct (parse_successors_between_occurrences ascii_tables
              (py "Merged into Tanzania") (py "Merged into Tanzania"))
    as (_ & _ & _ & Hnone & _).
  apply Hnone. intros p text a2 a3 num [(w1 & w2 & -> & _) (rest & Hs)].
  assert (Hin : In 40%N (skipn p (py "Merged into Tanzania")))
    by (rewrite Hs; simpl; auto).
  apply in_skipn in Hin. vm_compute in Hin. intuition discriminate.
Defined.

Lemma fix_incomplete_name_repairs_witness :
  exists p phrase,
    phrase_in ascii_tables (py "Republic of")
      (py "Korea, Republic of (KR, KOR, 410)") p phrase /\
    (forall q e, q < p ->
       ~ phrase_in ascii_tables (py "Republic of")
           (py "Korea, Republic of (KR, KOR, 410)") q e) /\
    re_sub ascii_tables trailing_codes_pattern [] phrase = phrase /\
    fix_incomplete_name ascii_tables (py "Republic of")
      (py "Korea, Republic of (KR, KOR, 410)")
    = Ok (py_strip (re_sub ascii_tables trailing_codes_pattern [] phrase)).
Proof.
  destruct (fix_incomplete_name_repairs ascii_tables (py "Republic of")
              (py "Korea, Republic of (KR, KOR, 410)"))
    as (_ & _ & _ & Hsuf).
  destruct (Hsuf (py "Republic of")) as [_ Hfound].
  - simpl. auto.
  - vm_compute. repeat constructor.
  - reflexivity.
  - apply Hfound. exists 0, (py "Korea, Republic of"). split.
    + exists (py "Korea"), [44%N], [32%N]. splits.
      * reflexivity.
      * discriminate.
      * repeat (apply Forall_cons; [reflexivity|]). apply Forall_nil.
      * auto.
      * repeat (apply Forall_cons; [reflexivity|]). apply Forall_nil.
    + exists (py " (KR, KOR, 410)"). reflexivity.
Defined.

Lemma parse_validity_period_first_occurrence_witness :
  parse_validity_period ascii_tables (Str (py "c1965-1974"))
  = Ok {| vp_start := Some 1965%N; vp_end := Some 1974%N |}.
Proof.
  destruct (parse_validity_period_first_occurrence ascii_tables
              (Str (py "c1965-1974")))
    as (v & Hv & _ & _ & _ & Hfirst & _).
  rewrite Hv. f_equal.
  apply (Hfirst eq_refl 1 (py "1965") (py "1974")).
  - exists 45%N, []. splits; auto.
    + repeat (apply Forall_cons; [reflexivity|]). apply Forall_nil.
    + repeat (apply Forall_cons; [reflexivity|]). apply Forall_nil.
  - intros q e1 e2 Hq (c & rest & Hs & L1 & _ & D1 & _).
    assert (q = 0) by lia. subst q.
    destruct e1 as [|x e1]; [discriminate|].
    inversion D1 as [|? ? Hx _]; subst.
    vm_compute in Hs. inversion Hs; subst. vm_compute in Hx. discriminate.
Defined.

Lemma determine_transition_type_priority_witness :
  determine_transition_type ascii_tables (Str (py "   ")) = other.
Proof.
  destruct (determine_transition_type_priority ascii_tables (Str (py "   ")))
    as (_ & _ & _ & _ & _ & Hblank & _).
  apply Hblank. repeat (apply Forall_cons; [reflexivity|]).
  apply Forall_nil.
Defined.

(** A method that refuses a row without columns, for a run with a failure. *)
Definition process_or_refuse (row : RawRow) : result country_record :=
  match row with
  | [] => Raise ValueError
  | _ => process_record ascii_tables row
  end.

Lemma scrape_loop_tolerates_failures_witness :
  In (1, ValueError)
    (snd (scrape_and_clean_with process_or_refuse
            {| dt_year := 2025; dt_month := 1; dt_day := 1 |}
            {| dt_year := 2025; dt_month := 1; dt_day := 1 |}
            [[("Former codes"%string, Str (py "BU, BUR, 104"))]; [];
             [("Former codes"%string, Str (py "ZR, ZAR, 180"))]])).
Proof.
  destruct (scrape_loop_tolerates_failures process_or_refuse
              {| dt_year := 2025; dt_month := 1; dt_day := 1 |}
              {| dt_year := 2025; dt_month := 1; dt_day := 1 |}
              [[("Former codes"%string, Str (py "BU, BUR, 104"))]; [];
               [("Former codes"%string, Str (py "ZR, ZAR, 180"))]])
    as (_ & _ & _ & Hnoted & _).
  apply (Hnoted 1 []); reflexivity.
Defined.

(** * Further properties of the normalizers *)

(** ** Whitespace after cleaning *)

Definition ws_free (w : str) : Prop := Forall (fun c => is_space c = false) w.

(** A word: at least one character, none of them whitespace. *)
Definition is_word_text (w : str) : Prop := w <> [] /\ ws_free w.

(** [s] is what joining its own words with single blanks gives. *)
Definition ws_normal (s : str) : Prop := py_join [32%N] (py_split_ws s) = s.

Lemma split_ws_words : forall (t cur : str),
  ws_free cur -> Forall is_word_text (split_ws cur t).
Proof.
  induction t as [|c t IH]; intros cur Hcur; simpl.
  - destruct cur as [|d cur]; [constructor|].
    constructor; [split; [discriminate | auto] | constructor].
  - destruct (is_space c) eqn:Hc.
    + destruct cur as [|d cur].
      * apply IH. constructor.
      * constructor; [split; [discriminate | auto]|]. apply IH. constructor.
    + apply IH. apply Forall_app. split; auto.
Qed.

Lemma split_ws_app_word : forall (w cur rest : str),
  ws_free w -> split_ws cur (w ++ rest) = split_ws (cur ++ w) rest.
Proof.
  induction w as [|c w IH]; intros cur rest Hw; simpl.
  - rewrite app_nil_r. reflexivity.
  - inversion Hw as [|? ? Hc Hw']; subst. rewrite Hc.
    rewrite IH by auto. rewrite <- app_assoc. reflexivity.
Qed.

Lemma py_join_cons (sep w : str) (W : list str) :
  W <> [] -> py_join sep (w :: W) = w ++ sep ++ py_join sep W.
Proof. destruct W; [congruence | reflexivity]. Qed.

Lemma split_ws_join : forall W : list str,
  Forall is_word_text W -> split_ws [] (py_join [32%N] W) = W.
Proof.
  induction W as [|w W IH]; intros H; [reflexivity|].
  inversion H as [|? ? [Hne Hw] HW]; subst.
  destruct W as [|w' W].
  - cbn [py_join]. rewrite <- (app_nil_r w) at 1.
    rewrite split_ws_app_word by auto. simpl. destruct w; congruence.
  - rewrite py_join_cons by discriminate.
    rewrite split_ws_app_word by auto. cbn [app split_ws].
    change (is_space 32) with true. cbv iota.
    rewrite IH by auto. destruct w; congruence.
Qed.

Lemma in_py_join (c : char) (sep : str) : forall W : list str,
  In c (py_join sep W) -> In c sep \/ exists w, In w W /\ In c w.
Proof.
  induction W as [|w W IH]; intros H; [destruct H|].
  destruct W as [|w' W].
  - right. exists w. simpl in *. auto.
  - rewrite py_join_cons in H by discriminate.
    apply in_app_or in H. destruct H as [H | H].
    + right. exists w. simpl. auto.
    + apply in_app_or in H. destruct H as [H | H]; auto.
      destruct (IH H) as [? | (w0 & Hw0 & Hc)]; auto.
      right. exists w0. simpl in *. auto.
Qed.

Lemma py_join_head (W : list str) (c : char) (w0 : str) :
  exists rest, py_join [32%N] ((c :: w0) :: W) = c :: rest.
Proof.
  destruct W.
  - exists w0. reflexivity.
  - rewrite py_join_cons by discriminate. eexists. reflexivity.
Qed.

Lemma py_join_last : forall W : list str,
  Forall is_word_text W -> W <> [] ->
  exists s' c, py_join [32%N] W = s' ++ [c] /\ is_space c = false.
Proof.
  induction W as [|w W IH]; intros H Hne; [congruence|].
  inversion H as [|? ? [Hw Hfree] HW]; subst.
  destruct W as [|w' W].
  - destruct (exists_last Hw) as (s' & c & ->). exists s', c. split; auto.
    unfold ws_free in Hfree. rewrite Forall_forall in Hfree.
    apply Hfree. apply in_or_app. simpl. auto.
  - destruct (IH HW) as (s' & c & E & Hc); [discriminate|].
    rewrite py_join_cons by discriminate. rewrite E.
    exists (w ++ [32%N] ++ s'), c. rewrite <- !app_assoc. auto.
Qed.

Lemma lstrip_id (s : str) :
  (forall c s', s = c :: s' -> is_space c = false) -> lstrip s = s.
Proof.
  destruct s as [|c s]; intros H; simpl; auto.
  rewrite (H c s eq_refl). reflexivity.
Qed.

Lemma py_strip_join (W : list str) :
  Forall is_word_text W -> py_strip (py_join [32%N] W) = py_join [32%N] W.
Proof.
  intros H. destruct W as [|w W]; [reflexivity|].
  assert (Hl : lstrip (py_join [32%N] (w :: W)) = py_join [32%N] (w :: W)).
  { apply lstrip_id. intros c s' E.
    inversion H as [|? ? [Hw Hfree] _]; subst.
    destruct w as [|d w0]; [congruence|].
    destruct (py_join_head W d w0) as (rest & E').
    pose proof (eq_trans (eq_sym E') E) as X. inversion X; subst.
    inversion Hfree; auto. }
  unfold py_strip. rewrite Hl. unfold rstrip.
  destruct (py_join_last H) as (s' & c & E & Hc); [discriminate|].
  rewrite E, rev_app_distr. simpl. rewrite Hc. simpl.
  rewrite rev_involutive. reflexivity.
Qed.

Lemma py_join_no_double_blank : forall W : list str,
  Forall is_word_text W ->
  forall a b : str, py_join [32%N] W <> a ++ [32%N; 32%N] ++ b.
Proof.
  assert (Hfree : forall w : str, ws_free w -> ~ In 32%N w).
  { intros w Hw Hin. unfold ws_free in Hw. rewrite Forall_forall in Hw.
    apply Hw in Hin. discriminate. }
  induction W as [|w W IH]; intros H a b E.
  - destruct a; discriminate.
  - inversion H as [|? ? [Hw Hf] HW]; subst.
    destruct W as [|w' W].
    + cbn [py_join] in E. apply (Hfree w Hf). rewrite E.
      apply in_or_app. right. simpl. auto.
    + rewrite py_join_cons in E by discriminate.
      assert (Hhead : forall rest, py_join [32%N] (w' :: W) <> 32%N :: rest).
      { intros rest E'. inversion HW as [|? ? [Hw' Hf'] _]; subst.
        destruct w' as [|d w0]; [congruence|].
        destruct (py_join_head W d w0) as (r & E'').
        pose proof (eq_trans (eq_sym E'') E') as X. inversion X; subst.
        inversion Hf' as [|? ? Hd _]. discriminate. }
      apply app_eq_app in E. destruct E as (l & [[Ew El] | [Ea El]]).
      * destruct l as [|x l].
        -- simpl in El. inversion El as [E']. eapply Hhead; eauto.
        -- apply (Hfree w Hf). rewrite Ew. apply in_or_app. right.
           simpl in El. inversion El; subst. simpl. auto.
      * destruct l as [|x l].
        -- simpl in El. inversion El as [E']. eapply Hhead; eauto.
        -- simpl in El. inversion El as [[Ex E']].
           apply (IH HW l b). exact E'.
Qed.

(** X1. Whatever the input, the cleaned name is in normal form for
    whitespace: it neither starts nor ends with whitespace, its only
    whitespace character is the blank, no two blanks are adjacent, and
    normalizing it again changes nothing; a missing value gives the empty
    string. *)
Theorem clean_country_name_normal_form (U : unicode_tables) (name : cell) :
  let cleaned := clean_country_name U name in
  ws_normal cleaned /\
  py_strip cleaned = cleaned /\
  (forall c, In c cleaned -> is_space c = true -> c = 32%N) /\
  (forall a b : str, cleaned <> a ++ [32%N; 32%N] ++ b) /\
  (if missing name then cleaned = [] else True).
Proof.
  intros cleaned. subst cleaned. unfold clean_country_name.
  destruct (missing name).
  - splits; auto; try reflexivity.
    + intros c [].
    + intros a b E. destruct a; discriminate.
  - set (W := py_split_ws
                (strip_prefixes (re_sub U note_pattern [] (py_str name)))).
    assert (HW : Forall is_word_text W)
      by (apply split_ws_words; constructor).
    rewrite (py_strip_join HW). splits; auto.
    + unfold ws_normal, py_split_ws. rewrite split_ws_join; auto.
    + apply py_strip_join; auto.
    + intros c Hin Hc. apply in_py_join in Hin.
      destruct Hin as [[<- | []] | (w & Hw & Hcw)]; auto.
      rewrite Forall_forall in HW. destruct (HW w Hw) as [_ Hf].
      unfold ws_free in Hf. rewrite Forall_forall in Hf.
      rewrite (Hf c Hcw) in Hc. discriminate.
    + apply py_join_no_double_blank; auto.
Qed.

(** ** Names that need no cleaning *)

(** Without an occurrence there is nothing to replace. *)
Lemma re_sub_none U r (repl s : str) :
  never_empty U r -> (forall p n g, ~ occurs U r s p n g) ->
  re_sub U r repl s = s.
Proof.
  intros Hne Hnone. unfold re_sub.
  pose proof (@finditer_scanned U r s Hne) as Hsc.
  destruct (finditer U r s) as [|m ms]; [reflexivity|].
  exfalso. destruct Hsc as (_ & _ & _ & Hocc & _). eapply Hnone; eauto.
Qed.

Lemma note_needs_bracket U (s : str) p n g :
  occurs U note_pattern s p n g -> In 91%N s.
Proof.
  intros [_ H]. apply note_accepts in H.
  destruct H as (ds & rest & Hs & _).
  assert (Hin : In 91%N (skipn p s)) by (rewrite Hs; simpl; auto).
  eapply in_skipn; eauto.
Qed.

(** X2. A text without opening bracket that starts with none of the action
    phrases is only normalized for whitespace: its words are joined by
    single blanks. A text already in that form is returned as it is. *)
Theorem clean_country_name_keeps_clean_text (U : unicode_tables) (s : str) :
  ~ In 91%N s ->
  (forall p, In p prefixes -> startswith s p = false) ->
  clean_country_name U (Str s) = py_join [32%N] (py_split_ws s) /\
  (ws_normal s -> clean_country_name U (Str s) = s).
Proof.
  intros Hbr Hpre.
  assert (E : clean_country_name U (Str s) = py_join [32%N] (py_split_ws s)).
  { unfold clean_country_name. destruct s as [|c s]; [reflexivity|].
    cbn [missing py_str].
    rewrite re_sub_none.
    - change (strip_prefixes (c :: s))
        with (fold_left strip_step prefixes (c :: s)).
      assert (Hnone : forall ps name,
                (forall p, In p ps -> startswith name p = false) ->
                fold_left strip_step ps name = name).
      { induction ps as [|p ps IH]; intros name H; simpl; auto.
        unfold strip_step at 2. rewrite (H p) by (simpl; auto).
        apply IH. intros q Hq. apply H. simpl. auto. }
      rewrite Hnone by auto. apply py_strip_join.
      apply split_ws_words. constructor.
    - apply note_never_empty.
    - intros p n g Hocc. apply Hbr. eapply note_needs_bracket; eauto. }
  split; auto. intros Hn. rewrite E. exact Hn.
Qed.

Lemma clean_country_name_keeps_clean_text_witness :
  clean_country_name ascii_tables (Str (py "Serbia and Montenegro"))
  = py "Serbia and Montenegro".
Proof.
  destruct (@clean_country_name_keeps_clean_text ascii_tables
              (py "Serbia and Montenegro")) as [_ Hsame].
  - vm_compute. intuition discriminate.
  - intros p Hp. vm_compute in Hp.
    repeat (destruct Hp as [<- | Hp]; [reflexivity|]). destruct Hp.
  - apply Hsame. reflexivity.
Defined.

(** ** The shape of the former codes *)

Lemma exactly_spec k p (t : str) :
  exactly k p t = true <->
  List.length t = k /\ Forall (fun c => p c = true) t.
Proof.
  unfold exactly. rewrite andb_true_iff, Nat.eqb_eq, forallb_forall,
    Forall_forall. tauto.
Qed.

Lemma parse_former_codes_slots U (codes_str : cell) :
  let tokens :=
    map py_strip (py_split 44%N (py_strip (py_str codes_str))) in
  let result := parse_former_codes U codes_str in
  alpha2 result = last_such is_alpha2 tokens /\
  alpha3 result = last_such is_alpha3 tokens /\
  numeric result = last_such (is_numeric3 U) tokens.
Proof.
  intros tokens result. subst result. unfold parse_former_codes.
  destruct (missing codes_str) eqn:Hm.
  - destruct codes_str as [|[|c s]]; try discriminate; vm_compute; auto.
  - fold tokens.
    destruct (codes_fold U (py_split 44%N (py_strip (py_str codes_str)))
                {| alpha2 := None; alpha3 := None; numeric := None |})
      as (E2 & E3 & En).
    fold tokens in E2, E3, En. unfold codes_step in E2, E3, En.
    rewrite E2, E3, En. simpl. unfold orelse.
    destruct (last_such is_alpha2 tokens), (last_such is_alpha3 tokens),
      (last_such (is_numeric3 U) tokens); auto.
Qed.

(** X3. Whatever [parse_former_codes] stores is well formed: alpha2 is two
    letters A-Z, alpha3 three letters A-Z, numeric three decimal digits, and
    each is one of the trimmed pieces of the input, so the three stored codes
    differ from one another. *)
Theorem parse_former_codes_wellformed (U : unicode_tables) (codes_str : cell) :
  let tokens :=
    map py_strip (py_split 44%N (py_strip (py_str codes_str))) in
  let result := parse_former_codes U codes_str in
  (forall t, alpha2 result = Some t ->
             List.length t = 2 /\ all_upper t /\ In t tokens) /\
  (forall t, alpha3 result = Some t ->
             List.length t = 3 /\ all_upper t /\ In t tokens) /\
  (forall t, numeric result = Some t ->
             List.length t = 3 /\ all_decimal U t /\ In t tokens) /\
  (forall t, alpha2 result = Some t -> alpha3 result <> Some t) /\
  (forall t, alpha2 result = Some t -> numeric result <> Some t) /\
  (forall t, alpha3 result = Some t -> numeric result <> Some t).
Proof.
  intros tokens result.
  destruct (parse_former_codes_slots U codes_str) as (E2 & E3 & En).
  fold tokens in E2, E3, En. fold result in E2, E3, En.
  assert (H2 : forall t, alpha2 result = Some t ->
                 List.length t = 2 /\ all_upper t /\ In t tokens).
  { intros t H. rewrite E2 in H. apply find_some in H. destruct H as [Hin H].
    apply exactly_spec in H. apply in_rev in Hin. tauto. }
  assert (H3 : forall t, alpha3 result = Some t ->
                 List.length t = 3 /\ all_upper t /\ In t tokens).
  { intros t H. rewrite E3 in H. apply find_some in H. destruct H as [Hin H].
    apply exactly_spec in H. apply in_rev in Hin. tauto. }
  assert (Hn : forall t, numeric result = Some t ->
                 List.length t = 3 /\ all_decimal U t /\ In t tokens).
  { intros t H. rewrite En in H. apply find_some in H. destruct H as [Hin H].
    apply exactly_spec in H. apply in_rev in Hin. tauto. }
  splits; auto.
  - intros t Ha Hb. apply H2 in Ha. apply H3 in Hb. lia.
  - intros t Ha Hb. apply H2 in Ha. apply Hn in Hb. lia.
  - intros t Ha Hb. apply H3 in Ha. apply Hn in Hb.
    destruct Ha as (L & Hu & _). destruct Hb as (_ & Hd & _).
    destruct t as [|c t]; [discriminate|].
    inversion Hu as [|? ? Hc _]. inversion Hd as [|? ? Hc' _]. subst.
    rewrite (upper_not_decimal U _ Hc) in Hc'. discriminate.
Qed.

Lemma parse_former_codes_wellformed_witness :
  List.length (py "YU") = 2 /\ all_upper (py "YU") /\
  In (py "YU")
    (map py_strip (py_split 44%N (py_strip (py_str (Str (py "YU, YUG, 891")))))).
Proof.
  destruct (parse_former_codes_wellformed ascii_tables
              (Str (py "YU, YUG, 891"))) as (H2 & _).
  apply H2. reflexivity.
Defined.

(** ** The range of the years *)

Section Years.
Variable U : unicode_tables.
Hypothesis digit_values : forall c d, uni_todecimal U c = Some d -> (d <= 9)%N.

Lemma todecimal_le c d : todecimal U c = Some d -> (d <= 9)%N.
Proof.
  unfold todecimal. destruct (is_ascii c); [|apply digit_values].
  destruct (ascii_digit c) eqn:Hd; [|discriminate].
  intros H. inversion H; subst. to_prop. lia.
Qed.

Lemma decimal_fold_lt : forall (d : str) (acc : N),
  (fold_left (fun acc c => match todecimal U c with
                           | Some v => (10 * acc + v)%N
                           | None => acc
                           end) d acc
   < (acc + 1) * 10 ^ N.of_nat (List.length d))%N.
Proof.
  induction d as [|c d IH]; intros acc.
  - simpl. lia.
  - cbn [fold_left List.length]. rewrite Nat2N.inj_succ, N.pow_succ_r'.
    eapply N.lt_le_trans; [apply IH|].
    assert (P : (0 < 10 ^ N.of_nat (List.length d))%N)
      by (apply N.neq_0_lt_0, N.pow_nonzero; discriminate).
    destruct (todecimal U c) as [v|] eqn:E.
    + apply todecimal_le in E. nia.
    + nia.
Qed.

Lemma decimal_value_four (d : str) :
  List.length d = 4 -> (decimal_value U d <= 9999)%N.
Proof.
  intros L. unfold decimal_value.
  pose proof (decimal_fold_lt d 0) as H. rewrite L in H.
  change (10 ^ N.of_nat 4)%N with 10000%N in H. lia.
Qed.

End Years.

(** X4. With digit values 0 to 9, the years [parse_validity_period] returns
    lie between 0 and 9999. *)
Theorem parse_validity_period_years_bounded
    (U : unicode_tables) (period_str : cell) (v : validity_period) :
  (forall c d, uni_todecimal U c = Some d -> (d <= 9)%N) ->
  parse_validity_period U period_str = Ok v ->
  (forall y, vp_start v = Some y -> (y <= 9999)%N) /\
  (forall y, vp_end v = Some y -> (y <= 9999)%N).
Proof.
  intros Hdig. unfold parse_validity_period.
  destruct (missing period_str).
  - intros H. inversion H; subst. simpl. split; discriminate.
  - pose proof (period_search U (py_strip (py_str period_str))) as Hs.
    destruct (re_search U period_pattern _) as [m|].
    + destruct Hs as (d1 & d2 & (c & rest & _ & L1 & L2 & D1 & D2 & _) &
                      -> & -> & _).
      rewrite !py_int_decimal by (auto; intros ->; discriminate).
      simpl. intros H. inversion H; subst. simpl.
      split; intros y Hy; inversion Hy; subst;
        apply decimal_value_four; auto.
    + intros H. inversion H; subst. simpl. split; discriminate.
Qed.

Lemma parse_validity_period_years_bounded_witness :
  (forall y, Some 1965%N = Some y -> (y <= 9999)%N) /\
  (forall y, Some 1974%N = Some y -> (y <= 9999)%N).
Proof.
  apply (@parse_validity_period_years_bounded ascii_tables
           (Str (py "1965-1974"))
           {| vp_start := Some 1965%N; vp_end := Some 1974%N |}).
  - discriminate.
  - vm_compute. reflexivity.
Defined.

(** ** What the repair returns *)

Lemma rstrip_id (s s' : str) (z : char) :
  s = s' ++ [z] -> is_space z = false -> rstrip s = s.
Proof.
  intros -> Hz. unfold rstrip. rewrite rev_app_distr. simpl. rewrite Hz.
  simpl. rewrite rev_involutive. reflexivity.
Qed.

(** Trimming keeps a suffix that starts and ends with a character other
    than whitespace. *)
Lemma py_strip_keeps_suffix (a z : char) (mid : str) : forall pre : str,
  is_space a = false -> is_space z = false ->
  exists x : str,
    py_strip (pre ++ a :: mid ++ [z]) = x ++ a :: mid ++ [z].
Proof.
  intros pre Ha Hz.
  assert (Hl : exists x : str,
             lstrip (pre ++ a :: mid ++ [z]) = x ++ a :: mid ++ [z]).
  { induction pre as [|c pre IH]; simpl.
    - rewrite Ha. exists []. reflexivity.
    - destruct (is_space c); [exact IH|]. exists (c :: pre). reflexivity. }
  destruct Hl as (x & Hl). exists x. unfold py_strip. rewrite Hl.
  apply rstrip_id with (s' := x ++ a :: mid) (z := z); auto.
  rewrite <- app_assoc. reflexivity.
Qed.

Lemma suffix_ends (suffix : str) :
  In suffix incomplete_suffixes ->
  exists a mid z, suffix = a :: mid ++ [z] /\
                  is_space a = false /\ is_space z = false /\
                  3 <= List.length suffix.
Proof.
  intros [<- | [<- | []]].
  - exists 82%N, (py "epublic o"), 102%N. splits; auto. simpl. lia.
  - exists 68%N, (py "emocratic Republic of th"), 101%N. splits; auto.
    simpl. lia.
Qed.

(** The two outcomes of [fix_incomplete_name]: the name itself, or the
    trimmed phrase of the first match for the suffix the name ends in. *)
Lemma fix_incomplete_name_result U (name raw fixed : str) :
  fix_incomplete_name U name raw = Ok fixed ->
  fixed = name \/
  exists suffix m phrase,
    In suffix incomplete_suffixes /\ endswith name suffix = true /\
    re_search U (phrase_pattern suffix) raw = Some m /\
    group m 1 = Some phrase /\ phrase_of U suffix phrase /\
    fixed = py_strip phrase.
Proof.
  unfold fix_incomplete_name. destruct name as [|c name].
  { intros H. inversion H. auto. }
  destruct (_ <? _). { intros H. inversion H. auto. }
  set (nm := c :: name).
  assert (Hcase : forall suffix, In suffix incomplete_suffixes ->
            endswith nm suffix = true ->
            fix_loop U patterns nm raw = Ok fixed ->
            fixed = nm \/
            exists suffix m phrase,
              In suffix incomplete_suffixes /\ endswith nm suffix = true /\
              re_search U (phrase_pattern suffix) raw = Some m /\
              group m 1 = Some phrase /\ phrase_of U suffix phrase /\
              fixed = py_strip phrase).
  { intros suffix Hin Hend. rewrite (fix_loop_suffix U nm raw Hin Hend).
    pose proof (phrase_search U suffix raw) as Hs.
    destruct (re_search U (phrase_pattern suffix) raw) as [m|] eqn:Em.
    - destruct Hs as (phrase & [Hp _] & Hg & _). rewrite Hg. simpl.
      rewrite (phrase_keeps (suffix := suffix)); auto.
      + intros H. inversion H. right. exists suffix, m, phrase. auto 8.
      + destruct Hin as [<- | [<- | []]]; vm_compute; intuition discriminate.
    - intros H. inversion H. auto. }
  destruct (endswith nm (py "Republic of")) eqn:E1.
  - apply (Hcase (py "Republic of")); simpl; auto.
  - destruct (endswith nm (py "Democratic Republic of the")) eqn:E2.
    + apply (Hcase (py "Democratic Republic of the")); simpl; auto.
    + rewrite fix_loop_other.
      * intros H. inversion H. auto.
      * intros suffix [<- | [<- | []]]; auto.
Qed.

Lemma repaired_phrase_ends U (suffix phrase : str) :
  In suffix incomplete_suffixes -> phrase_of U suffix phrase ->
  exists x : str, py_strip phrase = x ++ suffix.
Proof.
  intros Hin (w & c & sp & -> & _).
  destruct (suffix_ends Hin) as (a & mid & z & -> & Ha & Hz & _).
  destruct (@py_strip_keeps_suffix a z mid (w ++ c ++ sp) Ha Hz) as (x & E).
  exists x. rewrite <- E. rewrite <- !app_assoc. reflexivity.
Qed.

(** X5. Repairing a repaired name changes nothing more; the repair keeps
    the suffix the name ends in, and a name that is not empty stays so. *)
Theorem fix_incomplete_name_idempotent
    (U : unicode_tables) (name raw fixed : str) :
  fix_incomplete_name U name raw = Ok fixed ->
  fix_incomplete_name U fixed raw = Ok fixed /\
  (forall suffix, In suffix incomplete_suffixes ->
                  endswith name suffix = true ->
                  endswith fixed suffix = true) /\
  (name <> [] -> fixed <> []).
Proof.
  intros H. destruct (fix_incomplete_name_result U name raw H)
    as [-> | (suffix & m & phrase & Hin & Hend & Hs & Hg & Hp & ->)].
  { auto. }
  destruct (repaired_phrase_ends Hin Hp) as (x & Ex).
  destruct (suffix_ends Hin) as (a & mid & z & Esuf & _ & _ & Hlen).
  assert (Hends : endswith (py_strip phrase) suffix = true)
    by (apply endswith_spec; eauto).
  splits.
  - unfold fix_incomplete_name.
    destruct (py_strip phrase) as [|c fixed] eqn:Ef.
    + exfalso. destruct x; [|discriminate]. simpl in Ex.
      rewrite <- Ex in Esuf. discriminate.
    + destruct (_ <? _); [reflexivity|].
      rewrite (fix_loop_suffix U (c :: fixed) raw Hin Hends).
      rewrite Hs, Hg. simpl.
      rewrite (phrase_keeps (suffix := suffix)); auto.
      * rewrite Ef. reflexivity.
      * destruct Hin as [<- | [<- | []]]; vm_compute; intuition discriminate.
  - intros suffix' Hin' Hend'.
    assert (suffix' = suffix).
    { destruct Hin as [<- | [<- | []]], Hin' as [<- | [<- | []]]; auto;
        exfalso; apply (@endswith_exclusive name); assumption. }
    subst. exact Hends.
  - intros _ E. rewrite E in Ex. destruct x; [|discriminate].
    simpl in Ex. rewrite <- Ex in Esuf. discriminate.
Qed.

Lemma fix_incomplete_name_idempotent_witness :
  fix_incomplete_name ascii_tables (py "Korea, Republic of")
    (py "Korea, Republic of (KR, KOR, 410)")
  = Ok (py "Korea, Republic of").
Proof.
  apply (@fix_incomplete_name_idempotent ascii_tables (py "Republic of")
           (py "Korea, Republic of (KR, KOR, 410)")
           (py "Korea, Republic of")).
  vm_compute. reflexivity.
Defined.

(** ** The shape of the successors *)

Section SuccessorShape.
Variable U : unicode_tables.

(** A successor with a name of three characters or more and three codes of
    the shapes of the pattern. *)
Definition wellformed_successor (sc : successor) : Prop :=
  3 <= List.length (s_name sc) /\
  exists a2 a3 num : str,
    s_alpha2 sc = Some a2 /\ s_alpha3 sc = Some a3 /\
    s_numeric sc = Some num /\
    List.length a2 = 2 /\ all_upper a2 /\
    2 <= List.length a3 <= 3 /\ all_upper a3 /\
    3 <= List.length num <= 4 /\ all_decimal U num.

Lemma repaired_length (name raw : str) :
  3 <= List.length name -> 3 <= List.length (repaired U name raw).
Proof.
  intros Hlen. unfold repaired.
  destruct (fix_incomplete_name U name raw) as [fixed|e] eqn:E; auto.
  destruct (fix_incomplete_name_result U name raw E)
    as [-> | (suffix & m & phrase & Hin & _ & _ & _ & Hp & ->)]; auto.
  destruct (repaired_phrase_ends Hin Hp) as (x & ->).
  destruct (suffix_ends Hin) as (_ & _ & _ & _ & _ & _ & L).
  rewrite length_app. lia.
Qed.

Lemma successors_between_shape (s raw : str) : forall occs prev_end,
  Forall (fun m => m_string m = s /\ m_start m < m_end m /\
                   occurs U code_pattern s (m_start m) (m_end m - m_start m)
                     (m_spans m)) occs ->
  List.length (successors_between U s raw prev_end occs) <= List.length occs
  /\ Forall wellformed_successor (successors_between U s raw prev_end occs).
Proof.
  induction occs as [|m occs IH]; intros prev_end H; simpl.
  - split; [lia | constructor].
  - inversion H as [|? ? (Hstr & _ & Hocc) Hrest]; subst.
    destruct (IH (m_end m) Hrest) as [IHl IHf].
    unfold successor_of.
    destruct (List.length (name_between U (m_string m) prev_end (m_start m))
              <? 3) eqn:Hl; simpl.
    + split; [lia | exact IHf].
    + split; [lia|]. constructor; [|exact IHf].
      apply Nat.ltb_ge in Hl. split; simpl.
      * apply repaired_length. exact Hl.
      * destruct (@code_match_shape U (m_string m) m eq_refl Hocc)
          as (text & a2 & a3 & num & [(w1 & w2 & _ & L2 & U2 & _ & L3 & U3 &
                                       _ & Ln & Dn) _] & _ & G1 & G2 & G3).
        exists a2, a3, num. splits; auto; lia.
Qed.

End SuccessorShape.

(** X6. [parse_successors] gives at most one successor per occurrence of
    the code triplet, and each one it gives is complete: a name of at least
    three characters, an alpha2 code of two letters A-Z, an alpha3 code of
    two or three, a numeric code of three or four decimal digits. *)
Theorem parse_successors_wellformed
    (U : unicode_tables) (successor_str : cell) (raw : str)
    (successors : list successor) :
  parse_successors U successor_str raw = Ok successors ->
  List.length successors
  <= List.length (finditer U code_pattern (py_str successor_str)) /\
  Forall (wellformed_successor U) successors.
Proof.
  destruct successor_str as [|s].
  - intros H. inversion H; subst. simpl. split; [lia | constructor].
  - rewrite parse_successors_eq. intros H. inversion H; subst.
    apply successors_between_shape.
    apply scanned_forall with (pos := 0).
    apply finditer_scanned. apply code_never_empty.
Qed.

Lemma parse_successors_wellformed_witness :
  List.length
    [{| s_name := py "Czechia"; s_alpha2 := Some (py "CZ");
        s_alpha3 := Some (py "CZE"); s_numeric := Some (py "203") |};
     {| s_name := py "Slovakia"; s_alpha2 := Some (py "SK");
        s_alpha3 := Some (py "SVK"); s_numeric := Some (py "703") |}]
  <= List.length
       (finditer ascii_tables code_pattern
          (py_str (Str (py "Divided into: Czechia (CZ, CZE, 203) Slovakia (SK, SVK, 703)")))) /\
  Forall (wellformed_successor ascii_tables)
    [{| s_name := py "Czechia"; s_alpha2 := Some (py "CZ");
        s_alpha3 := Some (py "CZE"); s_numeric := Some (py "203") |};
     {| s_name := py "Slovakia"; s_alpha2 := Some (py "SK");
        s_alpha3 := Some (py "SVK"); s_numeric := Some (py "703") |}].
Proof.
  apply (@parse_successors_wellformed ascii_tables
           (Str (py "Divided into: Czechia (CZ, CZE, 203) Slovakia (SK, SVK, 703)"))
           (py "Divided into: Czechia (CZ, CZE, 203) Slovakia (SK, SVK, 703)")).
  vm_compute. reflexivity.
Defined.

(** ** Every row gives a record *)

Lemma successes_all U : forall df : DataFrame,
  Forall2 (fun row record => process_record U row = Ok record)
    df (successes (process_record U) df) /\
  failures_from (process_record U) 0 df = [].
Proof.
  assert (H : forall (df : DataFrame) i,
    Forall2 (fun row record => process_record U row = Ok record)
      df (successes (process_record U) df) /\
    failures_from (process_record U) i df = []).
  { induction df as [|row df IH]; intros i.
    - split; [constructor | reflexivity].
    - destruct (IH (S i)) as [IHs IHf].
      destruct (process_record_total U row) as (record & E).
      unfold successes, failures_from in *. simpl. rewrite E. simpl.
      split; [constructor; auto | exact IHf]. }
  intros df. apply H.
Qed.

(** X7. [process_record] raises for no row, so a run leaves no row out:
    the list of errors is empty, [countries] holds the record of each row
    in the order of the table, and [total_records] is the number of rows. *)
Theorem scrape_and_clean_never_drops_a_row
    (U : unicode_tables) (now1 now2 : datetime) (df : DataFrame) :
  let out := scrape_and_clean U now1 now2 df in
  snd out = [] /\
  Forall2 (fun row record => process_record U row = Ok record)
    df (ds_countries (fst out)) /\
  md_total_records (ds_metadata (fst out)) = List.length df.
Proof.
  unfold scrape_and_clean, scrape_and_clean_with. rewrite scrape_loop_eq.
  simpl. destruct (successes_all U df) as [Hs Hf].
  splits; auto. symmetry. eapply Forall2_length; eauto.
Qed.

(** ** Missing columns and empty cells *)

(** The columns [process_record] reads. *)
Definition columns : list string :=
  ["Former codes"; "Period of validity"; "New country names and codes";
   "Former country name"; "ISO 3166-3 code"]%string.

(** X8. [process_record] reads five columns only: rows that agree on them
    give the same result. A column that is missing counts as an empty cell;
    a row whose five cells are missing or empty gives a record with an empty
    name, no codes, no years, type [other], no successor and the empty
    string as withdrawal code, while cells that are all NaN give the same
    record with an absent withdrawal code. The withdrawal code of a record
    is absent exactly when the cell, as text and trimmed, reads "nan". *)
Theorem process_record_columns (U : unicode_tables) (row : RawRow) :
  (forall row',
     (forall label, In label columns ->
        row_get row label (Str []) = row_get row' label (Str [])) ->
     process_record U row = process_record U row') /\
  ((forall label, In label columns -> row_get row label (Str []) = Str []) ->
   process_record U row
   = Ok {| r_former_country :=
             {| fc_name := []; fc_alpha2 := None; fc_alpha3 := None;
                fc_numeric := None; fc_iso_3166_3_alpha4 := Some [] |};
           r_validity_period := {| vp_start := None; vp_end := None |};
           r_transition := {| t_type := other; t_successors := [] |} |}) /\
  ((forall label, In label columns -> row_get row label (Str []) = NaN) ->
   process_record U row
   = Ok {| r_former_country :=
             {| fc_name := []; fc_alpha2 := None; fc_alpha3 := None;
                fc_numeric := None; fc_iso_3166_3_alpha4 := None |};
           r_validity_period := {| vp_start := None; vp_end := None |};
           r_transition := {| t_type := other; t_successors := [] |} |}) /\
  (forall record,
     process_record U row = Ok record ->
     (fc_iso_3166_3_alpha4 (r_former_country record) = None <->
      py_strip (py_str (row_get row "ISO 3166-3 code" (Str []))) = py "nan") /\
     fc_iso_3166_3_alpha4 (r_former_country record) <> Some (py "nan")).
Proof.
  splits.
  - intros row' H. unfold process_record.
    rewrite !(H _) by (simpl; auto 10). reflexivity.
  - intros H. unfold process_record.
    rewrite !(H _) by (simpl; auto 10). vm_compute. reflexivity.
  - intros H. unfold process_record.
    rewrite !(H _) by (simpl; auto 10). vm_compute. reflexivity.
  - intros record. unfold process_record.
    destruct (parse_validity_period_total U
                (row_get row "Period of validity" (Str []))) as (v & ->).
    cbn [bind]. rewrite parse_successors_eq. cbn [bind].
    intros H. inversion H; subst. cbn [r_former_country fc_iso_3166_3_alpha4].
    destruct (str_eqb _ (py "nan")) eqn:E.
    + apply str_eqb_eq in E. split; [tauto | discriminate].
    + split.
      * split; [discriminate|]. intros E'. apply str_eqb_eq in E'. congruence.
      * intros E'. inversion E' as [E'']. apply str_eqb_eq in E''. congruence.
Qed.

Lemma process_record_columns_witness :
  process_record ascii_tables [("Notes"%string, Str (py "see below"))]
  = Ok {| r_former_country :=
            {| fc_name := []; fc_alpha2 := None; fc_alpha3 := None;
               fc_numeric := None; fc_iso_3166_3_alpha4 := Some [] |};
          r_validity_period := {| vp_start := None; vp_end := None |};
          r_transition := {| t_type := other; t_successors := [] |} |}.
Proof.
  destruct (process_record_columns ascii_tables
              [("Notes"%string, Str (py "see below"))]) as (_ & Hempty & _).
  apply Hempty. intros label Hin.
  repeat (destruct Hin as [<- | Hin]; [reflexivity|]). destruct Hin.
Defined.

(** ** The fallback of [fetch_table] *)

Lemma max_from_spec {A : Type} (key : A -> nat) : forall l best,
  exists pre post,
    best :: l = pre ++ max_from key best l :: post /\
    (forall x, In x pre -> key x < key (max_from key best l)) /\
    (forall x, In x post -> key x <= key (max_from key best l)).
Proof.
  induction l as [|a l IH]; intros best.
  - exists [], []. simpl. splits; auto; intros x [].
  - simpl. destruct (Nat.ltb_spec (key best) (key a)) as [Hlt | Hge].
    + destruct (IH a) as (pre & post & E & Hpre & Hpost).
      set (t := max_from key a l) in *.
      exists (best :: pre), post. splits; auto.
      * simpl. rewrite E. reflexivity.
      * intros x [<- | Hx]; auto.
        assert (key a <= key t); [|lia].
        destruct pre as [|p pre]; simpl in E; inversion E as [[Ea El]].
        -- try rewrite <- Ea. lia.
        -- assert (key p < key t) by (apply Hpre; simpl; auto).
           try rewrite Ea. lia.
    + destruct (IH best) as (pre & post & E & Hpre & Hpost).
      set (t := max_from key best l) in *.
      destruct pre as [|p pre]; simpl in E; inversion E as [[Eb El]].
      * exists [], (a :: post). split; [|split].
        -- simpl. congruence.
        -- intros x [].
        -- intros x [Hx | Hx]; [|auto]. subst x. try rewrite <- Eb. lia.
      * exists (p :: a :: pre), post. split; [|split].
        -- simpl. congruence.
        -- intros x [Hx | [Hx | Hx]].
           ++ apply Hpre. simpl. auto.
           ++ subst x.
              assert (key p < key t) by (apply Hpre; simpl; auto).
              try rewrite Eb in Hge. lia.
           ++ apply Hpre. simpl. auto.
        -- exact Hpost.
Qed.

(** X9. When no sortable table is found, [fetch_table] takes the table with
    the most rows, and the first such table when several have as many;
    without any table the selection raises. *)
Theorem largest_table_first_longest (tables : list DataFrame) :
  (tables = [] -> largest_table tables = Raise ValueError) /\
  (tables <> [] ->
   exists pre df post,
     tables = pre ++ df :: post /\ largest_table tables = Ok df /\
     (forall t, In t pre -> List.length t < List.length df) /\
     (forall t, In t post -> List.length t <= List.length df)).
Proof.
  split.
  - intros ->. reflexivity.
  - intros Hne. destruct tables as [|a rest]; [congruence|].
    destruct (max_from_spec (@List.length RawRow) rest a)
      as (pre & post & E & Hpre & Hpost).
    exists pre, (max_from (@List.length RawRow) a rest), post.
    unfold largest_table, py_max. auto.
Qed.

Lemma largest_table_first_longest_witness :
  exists pre df post,
    [[[("a"%string, NaN)]]; [[("b"%string, NaN)]; [("c"%string, NaN)]];
     [[("d"%string, NaN)]; [("e"%string, NaN)]]]
    = pre ++ df :: post /\
    largest_table
      [[[("a"%string, NaN)]]; [[("b"%string, NaN)]; [("c"%string, NaN)]];
       [[("d"%string, NaN)]; [("e"%string, NaN)]]] = Ok df /\
    (forall t, In t pre -> List.length t < List.length df) /\
    (forall t, In t post -> List.length t <= List.length df).
Proof.
  apply (proj2 (largest_table_first_longest
    [[[("a"%string, NaN)]]; [[("b"%string, NaN)]; [("c"%string, NaN)]];
     [[("d"%string, NaN)]; [("e"%string, NaN)]]])).
  discriminate.
Defined.

(** * The summary of [save_json] *)

(** ** Counting with a dict *)

Lemma str_eqb_refl (a : str) : str_eqb a a = true.
Proof. apply str_eqb_eq. reflexivity. Qed.

Lemma str_eqb_neq (a b : str) : str_eqb a b = false <-> a <> b.
Proof.
  split.
  - intros H E. apply str_eqb_eq in E. congruence.
  - intros H. destruct (str_eqb a b) eqn:E; auto.
    apply str_eqb_eq in E. congruence.
Qed.

Lemma dict_get_set : forall (d : dict) (k : str) v (k' : str) default,
  dict_get (dict_set d k v) k' default
  = if str_eqb k k' then v else dict_get d k' default.
Proof.
  induction d as [|[k0 v0] d IH]; intros k v k' default; simpl.
  - reflexivity.
  - destruct (str_eqb k0 k) eqn:E0; simpl.
    + apply str_eqb_eq in E0. subst k0.
      destruct (str_eqb k k'); reflexivity.
    + rewrite IH. destruct (str_eqb k0 k') eqn:E1; auto.
      apply str_eqb_eq in E1. subst k0.
      assert (str_eqb k k' = false) as ->; [|reflexivity].
      apply str_eqb_neq. apply str_eqb_neq in E0. congruence.
Qed.

Lemma dict_sum_set : forall (d : dict) (k : str) v,
  dict_sum (dict_set d k v) + dict_get d k 0 = dict_sum d + v.
Proof.
  induction d as [|[k0 v0] d IH]; intros k v.
  - simpl. lia.
  - specialize (IH k v). cbn [dict_set dict_get].
    destruct (str_eqb k0 k).
    + unfold dict_sum. cbn [fold_right snd]. lia.
    + unfold dict_sum in *. cbn [fold_right snd]. lia.
Qed.

Lemma dict_set_keys : forall (d : dict) (k : str) v,
  (In k (map fst d) /\ map fst (dict_set d k v) = map fst d) \/
  (~ In k (map fst d) /\ map fst (dict_set d k v) = map fst d ++ [k]).
Proof.
  induction d as [|[k0 v0] d IH]; intros k v; simpl.
  - right. split; auto.
  - destruct (str_eqb k0 k) eqn:E; simpl.
    + apply str_eqb_eq in E. left. auto.
    + apply str_eqb_neq in E.
      destruct (IH k v) as [[Hin Hk] | [Hin Hk]]; rewrite Hk.
      * left. auto.
      * right. split; auto. intros [? | ?]; auto.
Qed.

Lemma dict_set_values (P : str * nat -> Prop) : forall (d : dict) (k : str) v,
  Forall P d -> (forall k0, P (k0, v)) -> Forall P (dict_set d k v).
Proof.
  induction d as [|[k0 v0] d IH]; intros k v Hd Hv; simpl.
  - constructor; auto.
  - inversion Hd; subst. destruct (str_eqb k0 k); constructor; auto.
Qed.

(** One more for key [k]. *)
Definition bump (d : dict) (k : str) : dict :=
  dict_set d k (dict_get d k 0 + 1).

(** The counts after one more for each of [keys]. *)
Lemma tally_spec : forall (keys : list str) (d : dict),
  let counts := fold_left bump keys d in
  (forall k, dict_get counts k 0
             = dict_get d k 0 + List.length (filter (str_eqb k) keys)) /\
  dict_sum counts = dict_sum d + List.length keys /\
  (NoDup (map fst d) -> NoDup (map fst counts)) /\
  (forall k, In k (map fst counts) -> In k (map fst d) \/ In k keys) /\
  (Forall (fun kv => 1 <= snd kv) d -> Forall (fun kv => 1 <= snd kv) counts).
Proof.
  induction keys as [|k0 keys IH]; intros d; cbn [fold_left].
  - cbn zeta. simpl. splits; auto.
  - destruct (IH (bump d k0)) as (Hget & Hsum & Hnd & Hin & Hpos).
    cbn zeta. splits.
    + intros k. rewrite Hget. unfold bump at 1. rewrite dict_get_set.
      cbn [filter].
      destruct (str_eqb k0 k) eqn:E.
      * apply str_eqb_eq in E. subst k0. rewrite !str_eqb_refl. simpl. lia.
      * assert (str_eqb k k0 = false) as ->.
        { apply str_eqb_neq. apply str_eqb_neq in E. congruence. }
        lia.
    + rewrite Hsum. unfold bump.
      pose proof (dict_sum_set d k0 (dict_get d k0 0 + 1)). simpl. lia.
    + intros Hd. apply Hnd. unfold bump.
      destruct (dict_set_keys d k0 (dict_get d k0 0 + 1))
        as [[_ ->] | [Hnot ->]]; auto.
      apply NoDup_app; splits; auto.
      * repeat constructor. intros [].
      * intros x Hx [<- | []]. auto.
    + intros k Hk. destruct (Hin k Hk) as [Hb | Hb].
      * unfold bump in Hb.
        destruct (dict_set_keys d k0 (dict_get d k0 0 + 1))
          as [[_ E] | [_ E]]; rewrite E in Hb; auto.
        apply in_app_or in Hb. destruct Hb as [? | [<- | []]]; simpl; auto.
      * simpl. auto.
    + intros Hd. apply Hpos. unfold bump. apply dict_set_values; auto.
      intros k1. simpl. lia.
Qed.

(** ** The two summaries *)

Definition type_eqb (a b : transition_type) : bool :=
  match a, b with
  | merged, merged | name_changed, name_changed
  | divided, divided | other, other => true
  | _, _ => false
  end.

Lemma type_name_eqb (a b : transition_type) :
  str_eqb (type_name a) (type_name b) = type_eqb b a.
Proof. destruct a, b; reflexivity. Qed.

Lemma fold_bump_map {A : Type} (f : A -> str) : forall (l : list A) (d : dict),
  fold_left (fun d c => dict_set d (f c) (dict_get d (f c) 0 + 1)) l d
  = fold_left bump (map f l) d.
Proof.
  induction l as [|c l IH]; intros d; simpl; auto.
Qed.

Lemma filter_map_length {A : Type} (f : A -> str) (p : str -> bool) :
  forall l : list A,
    List.length (filter p (map f l))
    = List.length (filter (fun c => p (f c)) l).
Proof.
  induction l as [|c l IH]; simpl; auto.
  destruct (p (f c)); simpl; auto.
Qed.

(** X10. The summary by transition type counts every country once: the
    count under each type is the number of countries of that type, the
    counts add up to the number of countries (a run's [total_records]), a
    type without country has no entry and no type has two. *)
Theorem transition_counts_tally (data : dataset) :
  let counts := transition_counts data in
  (forall t,
     dict_get counts (type_name t) 0
     = List.length
         (filter (fun c => type_eqb (t_type (r_transition c)) t)
            (ds_countries data))) /\
  dict_sum counts = List.length (ds_countries data) /\
  NoDup (map fst counts) /\
  Forall (fun kv => 1 <= snd kv) counts /\
  (forall k, In k (map fst counts) ->
     exists c, In c (ds_countries data) /\
               k = type_name (t_type (r_transition c))) /\
  (forall process now1 now2 df,
     dict_sum
       (transition_counts (fst (scrape_and_clean_with process now1 now2 df)))
     = md_total_records
         (ds_metadata (fst (scrape_and_clean_with process now1 now2 df)))).
Proof.
  assert (Hsum : forall data',
            dict_sum (transition_counts data')
            = List.length (ds_countries data')).
  { intros data'. unfold transition_counts. cbn zeta.
    rewrite (fold_bump_map (fun c => type_name (t_type (r_transition c)))).
    destruct (tally_spec
                (map (fun c => type_name (t_type (r_transition c)))
                   (ds_countries data')) []) as (_ & -> & _).
    simpl. apply length_map. }
  assert (Hrun : forall process now1 now2 df,
     dict_sum
       (transition_counts (fst (scrape_and_clean_with process now1 now2 df)))
     = md_total_records
         (ds_metadata (fst (scrape_and_clean_with process now1 now2 df)))).
  { intros process now1 now2 df. rewrite Hsum.
    unfold scrape_and_clean_with.
    destruct (scrape_loop process df). reflexivity. }
  intros counts. subst counts. unfold transition_counts at 1 2 3 4 5.
  cbn zeta.
  rewrite (fold_bump_map (fun c => type_name (t_type (r_transition c)))).
  destruct (tally_spec
              (map (fun c => type_name (t_type (r_transition c)))
                 (ds_countries data)) [])
    as (Hget & Hs & Hnd & Hin & Hpos).
  splits.
  - intros t. rewrite Hget. simpl. rewrite filter_map_length.
    f_equal. apply filter_ext. intros c. apply type_name_eqb.
  - rewrite Hs. simpl. apply length_map.
  - apply Hnd. constructor.
  - apply Hpos. constructor.
  - intros k Hk. destruct (Hin k Hk) as [[] | Hk'].
    apply in_map_iff in Hk'. destruct Hk' as (c & <- & Hc). eauto.
  - exact Hrun.
Qed.

(** The countries the summary by decade counts: those with a start year
    other than 0. *)
Definition dated (c : country_record) : bool :=
  match vp_start (r_validity_period c) with
  | Some y => negb (y =? 0)%N
  | None => false
  end.

Definition decade_keys (countries : list country_record) : list str :=
  flat_map (fun c => match vp_start (r_validity_period c) with
                     | Some y => if (y =? 0)%N then [] else [decade_label y]
                     | None => []
                     end) countries.

Lemma decade_fold : forall (l : list country_record) (d : dict),
  fold_left
    (fun decade_counts country =>
       match vp_start (r_validity_period country) with
       | Some start =>
           if (start =? 0)%N then decade_counts
           else
             let decade := decade_label start in
             dict_set decade_counts decade
               (dict_get decade_counts decade 0 + 1)
       | None => decade_counts
       end) l d
  = fold_left bump (decade_keys l) d.
Proof.
  induction l as [|c l IH]; intros d; simpl; auto.
  rewrite fold_left_app, IH.
  destruct (vp_start (r_validity_period c)) as [y|]; auto.
  destruct (y =? 0)%N; reflexivity.
Qed.

Lemma decade_label_four_digits_check :
  forallb (fun n =>
             str_eqb (decade_label (N.of_nat n))
               (py_str_int (10 * (N.of_nat n / 10)) ++ py "s"))
    (seq 1000 (9 * 1000)) = true.
Proof. vm_compute. reflexivity. Qed.

Lemma decade_label_short_check :
  forallb (fun n =>
             str_eqb (decade_label (N.of_nat n))
               (py_str_int (10 * N.of_nat n) ++ py "s"))
    (seq 1 999) = true.
Proof. vm_compute. reflexivity. Qed.

Lemma decade_keys_length (l : list country_record) :
  List.length (decade_keys l) = List.length (filter dated l).
Proof.
  unfold decade_keys.
  induction l as [|c l IH]; simpl; auto.
  rewrite length_app, IH. unfold dated.
  destruct (vp_start (r_validity_period c)) as [y|]; simpl; auto.
  destruct (y =? 0)%N; reflexivity.
Qed.

Lemma decade_keys_filter (label : str) (l : list country_record) :
  List.length (filter (str_eqb label) (decade_keys l))
  = List.length
      (filter (fun c =>
                 match vp_start (r_validity_period c) with
                 | Some y => negb (y =? 0)%N &&
                             str_eqb label (decade_label y)
                 | None => false
                 end) l).
Proof.
  unfold decade_keys.
  induction l as [|c l IH]; simpl; auto.
  rewrite filter_app, length_app, IH.
  destruct (vp_start (r_validity_period c)) as [y|]; simpl; auto.
  destruct (y =? 0)%N; simpl; auto.
  destruct (str_eqb label (decade_label y)); reflexivity.
Qed.

(** X11. The summary by decade counts each country with a start year other
    than 0 once, under the label of its year, and passes over the others.
    For a year of four digits the label is the decade ("1960s" for 1965);
    for a year below 1000 it is ten times the year ("9650s" for 965). *)
Theorem decade_counts_tally (data : dataset) :
  let counts := decade_counts data in
  dict_sum counts = List.length (filter dated (ds_countries data)) /\
  (forall label : str,
     dict_get counts label 0
     = List.length
         (filter (fun c =>
                    match vp_start (r_validity_period c) with
                    | Some y => negb (y =? 0)%N &&
                                str_eqb label (decade_label y)
                    | None => false
                    end) (ds_countries data))) /\
  (forall y, (1000 <= y <= 9999)%N ->
     decade_label y = py_str_int (10 * (y / 10)) ++ py "s") /\
  (forall y, (1 <= y <= 999)%N ->
     decade_label y = py_str_int (10 * y) ++ py "s").
Proof.
  intros counts. subst counts. unfold decade_counts. rewrite decade_fold.
  destruct (tally_spec (decade_keys (ds_countries data)) [])
    as (Hget & Hs & _).
  splits.
  - rewrite Hs. simpl. apply decade_keys_length.
  - intros label. rewrite Hget. simpl. apply decade_keys_filter.
  - intros y Hy. pose proof decade_label_four_digits_check as H.
    rewrite forallb_forall in H. specialize (H (N.to_nat y)).
    rewrite N2Nat.id in H. apply str_eqb_eq. apply H.
    apply in_seq. lia.
  - intros y Hy. pose proof decade_label_short_check as H.
    rewrite forallb_forall in H. specialize (H (N.to_nat y)).
    rewrite N2Nat.id in H. apply str_eqb_eq. apply H.
    apply in_seq. lia.
Qed.

Lemma decade_counts_tally_witness :
  decade_label 1965 = py "1960s" /\ decade_label 965 = py "9650s".
Proof.
  destruct (decade_counts_tally
              {| ds_metadata :=
                   {| md_title := []; md_description := []; md_source := [];
                      md_standard := []; md_version := [];
                      md_total_records := 0; md_last_updated := [] |};
                 ds_countries := [] |}) as (_ & _ & Hfour & Hshort).
  split.
  - rewrite (Hfour 1965%N) by lia. reflexivity.
  - rewrite (Hshort 965%N) by lia. reflexivity.
Defined.

Lemma transition_counts_tally_witness :
  exists c,
    In c [{| r_former_country :=
               {| fc_name := py "Burma"; fc_alpha2 := None;
                  fc_alpha3 := None; fc_numeric := None;
                  fc_iso_3166_3_alpha4 := None |};
             r_validity_period := {| vp_start := None; vp_end := None |};
             r_transition := {| t_type := name_changed;
                                t_successors := [] |} |}] /\
    py "name_changed" = type_name (t_type (r_transition c)).
Proof.
  destruct (transition_counts_tally
    {| ds_metadata :=
         {| md_title := []; md_description := []; md_source := [];
            md_standard := []; md_version := [];
            md_total_records := 1; md_last_updated := [] |};
       ds_countries :=
         [{| r_former_country :=
               {| fc_name := py "Burma"; fc_alpha2 := None;
                  fc_alpha3 := None; fc_numeric := None;
                  fc_iso_3166_3_alpha4 := None |};
             r_validity_period := {| vp_start := None; vp_end := None |};
             r_transition := {| t_type := name_changed;
                                t_successors := [] |} |}] |})
    as (_ & _ & _ & _ & Hkeys & _).
  apply Hkeys. simpl. auto.
Defined.

(** * The records of a run *)

Lemma rstrip_prefix (s : str) : exists k, rstrip s = firstn k s.
Proof.
  unfold rstrip. destruct (lstrip_suffix (rev s)) as (k & ->).
  rewrite skipn_rev, rev_involutive. eauto.
Qed.

Lemma py_strip_head (s : str) c s' :
  py_strip s = c :: s' -> is_space c = false.
Proof.
  unfold py_strip. destruct (rstrip_prefix (lstrip s)) as (k & ->).
  destruct (lstrip s) as [|d u] eqn:E.
  - rewrite firstn_nil. discriminate.
  - destruct k; simpl; [discriminate|]. intros H. inversion H; subst.
    eapply lstrip_head; eauto.
Qed.

(** Trimming twice is trimming once. *)
Lemma py_strip_idempotent (s : str) : py_strip (py_strip s) = py_strip s.
Proof.
  destruct (py_strip s) as [|c t] eqn:E; [reflexivity|].
  assert (Hl : lstrip (c :: t) = c :: t).
  { apply lstrip_id. intros c' s' H. inversion H; subst.
    eapply py_strip_head; eauto. }
  unfold py_strip at 1. rewrite Hl.
  destruct (@exists_last _ (c :: t)) as (l & z & El); [discriminate|].
  apply (@rstrip_id (c :: t) l z El).
  apply (@py_strip_last s l z). rewrite E. exact El.
Qed.

Lemma cleaned_ws_normal U (name : cell) :
  ws_normal (clean_country_name U name).
Proof.
  unfold clean_country_name. destruct (missing name); [reflexivity|].
  set (W := py_split_ws
              (strip_prefixes (re_sub U note_pattern [] (py_str name)))).
  assert (HW : Forall is_word_text W)
    by (apply split_ws_words; constructor).
  rewrite (py_strip_join HW). unfold ws_normal, py_split_ws.
  rewrite split_ws_join; auto.
Qed.

Lemma stored_codes_shape U (codes_str : cell) :
  let result := parse_former_codes U codes_str in
  (forall t, alpha2 result = Some t -> List.length t = 2 /\ all_upper t) /\
  (forall t, alpha3 result = Some t -> List.length t = 3 /\ all_upper t) /\
  (forall t, numeric result = Some t ->
             List.length t = 3 /\ all_decimal U t).
Proof.
  intros result.
  destruct (parse_former_codes_slots U codes_str) as (E2 & E3 & En).
  fold result in E2, E3, En.
  splits; intros t H;
    [rewrite E2 in H | rewrite E3 in H | rewrite En in H];
    apply find_some in H; destruct H as [_ H];
    apply exactly_spec in H; exact H.
Qed.

Lemma validity_shape U (period_str : cell) (v : validity_period) :
  (forall c d, uni_todecimal U c = Some d -> (d <= 9)%N) ->
  parse_validity_period U period_str = Ok v ->
  (vp_start v = None /\ vp_end v = None) \/
  (exists a b, vp_start v = Some a /\ vp_end v = Some b /\
               (a <= 9999)%N /\ (b <= 9999)%N).
Proof.
  intros Hdig. unfold parse_validity_period.
  destruct (missing period_str).
  - intros H. inversion H; subst. auto.
  - pose proof (period_search U (py_strip (py_str period_str))) as Hs.
    destruct (re_search U period_pattern _) as [m|].
    + destruct Hs as (d1 & d2 & (c & rest & _ & L1 & L2 & D1 & D2 & _) &
                      -> & -> & _).
      rewrite !py_int_decimal by (auto; intros ->; discriminate).
      simpl. intros H. inversion H; subst. simpl. right.
      exists (decimal_value U d1), (decimal_value U d2).
      splits; auto; apply decimal_value_four; auto.
    + intros H. inversion H; subst. auto.
Qed.

(** What holds of a record of the dataset. *)
Definition wellformed_record (U : unicode_tables) (r : country_record)
    : Prop :=
  let fc := r_former_country r in
  let v := r_validity_period r in
  ws_normal (fc_name fc) /\
  (forall t, fc_alpha2 fc = Some t -> List.length t = 2 /\ all_upper t) /\
  (forall t, fc_alpha3 fc = Some t -> List.length t = 3 /\ all_upper t) /\
  (forall t, fc_numeric fc = Some t ->
             List.length t = 3 /\ all_decimal U t) /\
  (forall t, fc_iso_3166_3_alpha4 fc = Some t ->
             py_strip t = t /\ t <> py "nan") /\
  ((vp_start v = None /\ vp_end v = None) \/
   (exists a b, vp_start v = Some a /\ vp_end v = Some b /\
                (a <= 9999)%N /\ (b <= 9999)%N)) /\
  Forall (wellformed_successor U) (t_successors (r_transition r)).

Lemma process_record_wellformed U (row : RawRow) (record : country_record) :
  (forall c d, uni_todecimal U c = Some d -> (d <= 9)%N) ->
  process_record U row = Ok record -> wellformed_record U record.
Proof.
  intros Hdig. unfold process_record.
  destruct (parse_validity_period U
              (row_get row "Period of validity" (Str []))) as [v|e] eqn:Ev;
    cbn [bind]; [|discriminate].
  rewrite parse_successors_eq. cbn [bind].
  intros H. inversion H; subst. clear H.
  destruct (stored_codes_shape U (row_get row "Former codes" (Str [])))
    as (H2 & H3 & Hn).
  unfold wellformed_record.
  cbn [r_former_country r_validity_period r_transition fc_name fc_alpha2
       fc_alpha3 fc_numeric fc_iso_3166_3_alpha4 t_successors t_type].
  splits; auto.
  - apply cleaned_ws_normal.
  - intros t.
    destruct (str_eqb
                (py_strip (py_str (row_get row "ISO 3166-3 code" (Str []))))
                (py "nan")) eqn:E; [discriminate|].
    intros H. inversion H; subst. split.
    + apply py_strip_idempotent.
    + apply str_eqb_neq. exact E.
  - eapply validity_shape; eauto.
  - apply successors_between_shape.
    apply scanned_forall with (pos := 0).
    apply finditer_scanned. apply code_never_empty.
Qed.

(** X12. With digit values 0 to 9, every record of the dataset of a run is
    well formed: its name is normalized for whitespace; a stored alpha2 is
    two letters A-Z, a stored alpha3 three, a stored numeric code three
    decimal digits; a stored withdrawal code is trimmed and is not "nan";
    the two years are both absent or both present and at most 9999; and
    every successor is complete. *)
Theorem scrape_and_clean_records_wellformed
    (U : unicode_tables) (now1 now2 : datetime) (df : DataFrame) :
  (forall c d, uni_todecimal U c = Some d -> (d <= 9)%N) ->
  Forall (wellformed_record U)
    (ds_countries (fst (scrape_and_clean U now1 now2 df))).
Proof.
  intros Hdig.
  unfold scrape_and_clean, scrape_and_clean_with. rewrite scrape_loop_eq.
  simpl. destruct (successes_all U df) as [Hs _].
  induction Hs as [|row record df records E _ IH]; constructor; auto.
  eapply process_record_wellformed; eauto.
Qed.

Lemma scrape_and_clean_records_wellformed_witness :
  Forall (wellformed_record ascii_tables)
    (ds_countries
       (fst (scrape_and_clean ascii_tables
               {| dt_year := 2025; dt_month := 1; dt_day := 2 |}
               {| dt_year := 2025; dt_month := 1; dt_day := 2 |}
               [[("Former country name"%string, Str (py "Burma"));
                 ("Former codes"%string, Str (py "BU, BUR, 104"));
                 ("Period of validity"%string, Str (py "1974-1989"));
                 ("ISO 3166-3 code"%string, Str (py "BUMM"));
                 ("New country names and codes"%string,
                  Str (py "Name changed to Myanmar (MM, MMR, 104)"))]]))).
Proof.
  apply scrape_and_clean_records_wellformed. discriminate.
Defined.
